(** * The cumulative-density filter of [@contractrabbit/ui]

    A shallow embedding of [packages/ui/src/lib/cumulative-utils.ts] and of
    the numeric core of the [CumulativeDensityFilter] component
    (distribution builder and drag handler), with the properties its
    specification states about them.

    Numbers.  A finite JavaScript [number] is modelled as an exact real
    ([R]): rounding, overflow to infinity and the sign of zero are
    abstracted away.  Where the code can leave the finite reals (division
    by zero, [Math.log] of a non-positive value) the result has the type
    [number] below, which adds [Infinity], [-Infinity] and [NaN].
    Array indices and counts are integers ([Z]); the [>>] operator first
    truncates its left operand to a signed 32-bit integer, and this
    wrap-around is written out. *)

From Stdlib Require Import Reals Lra Lia ZArith Bool String List.
From Stdlib Require Import Sorting.Sorted Sorting.Permutation.
From Stdlib Require Import Zfloor.
Import ListNotations.

Local Open Scope R_scope.

(** ** JavaScript numbers *)

Module Js.

Inductive number : Type :=
| Fin (r : R)
| PInf
| NInf
| NaN.

Definition Rltb (x y : R) : bool := if Rlt_dec x y then true else false.
Definition Rleb (x y : R) : bool := if Rle_dec x y then true else false.
Definition Reqb (x y : R) : bool := if Req_dec_T x y then true else false.

(** [Infinity] with the sign of a product or quotient whose operands are
    positive ([true]) or negative ([false]). *)
Definition inf_of (positive : bool) : number :=
  if positive then PInf else NInf.

Definition neg (a : number) : number :=
  match a with
  | Fin x => Fin (- x)
  | PInf => NInf
  | NInf => PInf
  | NaN => NaN
  end.

Definition add (a b : number) : number :=
  match a, b with
  | NaN, _ | _, NaN => NaN
  | Fin x, Fin y => Fin (x + y)
  | PInf, NInf | NInf, PInf => NaN
  | PInf, _ | _, PInf => PInf
  | NInf, _ | _, NInf => NInf
  end.

Definition sub (a b : number) : number := add a (neg b).

(** The sign of an operand that is not [NaN] and not zero. *)
Definition positive (a : number) : bool :=
  match a with
  | Fin x => Rltb 0 x
  | PInf => true
  | NInf | NaN => false
  end.

Definition is_zero (a : number) : bool :=
  match a with
  | Fin x => Reqb x 0
  | _ => false
  end.

Definition mul (a b : number) : number :=
  match a, b with
  | NaN, _ | _, NaN => NaN
  | Fin x, Fin y => Fin (x * y)
  | _, _ =>
      if is_zero a || is_zero b then NaN
      else inf_of (Bool.eqb (positive a) (positive b))
  end.

(** Division.  A zero divisor is the positive zero: the only divisor of
    the modelled code that can be zero is the width of a [DOMRect]. *)
Definition div (a b : number) : number :=
  match a, b with
  | NaN, _ | _, NaN => NaN
  | Fin x, Fin y =>
      if Reqb y 0
      then (if Reqb x 0 then NaN else inf_of (Rltb 0 x))
      else Fin (x / y)
  | Fin _, _ => Fin 0
  | _, Fin y =>
      if Reqb y 0 then a else inf_of (Bool.eqb (positive a) (Rltb 0 y))
  | _, _ => NaN
  end.

(** [Math.log] *)
Definition Math_log (a : number) : number :=
  match a with
  | Fin x => if Rltb 0 x then Fin (ln x)
             else if Reqb x 0 then NInf else NaN
  | PInf => PInf
  | NInf | NaN => NaN
  end.

(** [Math.exp] *)
Definition Math_exp (a : number) : number :=
  match a with
  | Fin x => Fin (exp x)
  | PInf => PInf
  | NInf => Fin 0
  | NaN => NaN
  end.

(** [Math.min] and [Math.max] of two arguments *)
Definition Math_min (a b : number) : number :=
  match a, b with
  | NaN, _ | _, NaN => NaN
  | NInf, _ | _, NInf => NInf
  | PInf, c | c, PInf => c
  | Fin x, Fin y => Fin (Rmin x y)
  end.

Definition Math_max (a b : number) : number :=
  match a, b with
  | NaN, _ | _, NaN => NaN
  | PInf, _ | _, PInf => PInf
  | NInf, c | c, NInf => c
  | Fin x, Fin y => Fin (Rmax x y)
  end.

(** [ToBoolean]: zero and [NaN] are falsy. *)
Definition truthy (a : number) : bool :=
  match a with
  | Fin x => negb (Reqb x 0)
  | PInf | NInf => true
  | NaN => false
  end.

(** [a || b] *)
Definition or_else (a b : number) : number := if truthy a then a else b.

(** [Math.round] on a finite number: the nearest integer, ties towards
    [+Infinity]. *)
Definition Math_round (x : R) : Z := Zfloor (x + / 2).

(** [ToInt32] on an integer, and [z >> 1]. *)
Definition toInt32 (z : Z) : Z := ((z + 2 ^ 31) mod 2 ^ 32 - 2 ^ 31)%Z.
Definition sar1 (z : Z) : Z := Z.shiftr (toInt32 z) 1.

(** [arr[m]]: [None] is [undefined] (index negative or past the end). *)
Definition get {A} (arr : list A) (m : Z) : option A :=
  if (m <? 0)%Z then None else nth_error arr (Z.to_nat m).

Definition len {A} (arr : list A) : Z := Z.of_nat (length arr).

End Js.

Import Js.

(** ** [cumulative-utils.ts] *)

(** [type FilterMode = 'lt' | 'lte' | 'gt' | 'gte'], a string at run time. *)
Definition FilterMode := string.

(** [arr[m]! < x] and [arr[m]! <= x]: a comparison with [undefined] is
    false. *)
Definition elem_lt (arr : list R) (m : Z) (x : R) : bool :=
  match get arr m with Some v => Rltb v x | None => false end.

Definition elem_le (arr : list R) (m : Z) (x : R) : bool :=
  match get arr m with Some v => Rleb v x | None => false end.

(** The loop of [lowerBound]; [None] when the fuel runs out. *)
Fixpoint lowerBound_while (fuel : nat) (arr : list R) (x : R) (l r : Z)
  {struct fuel} : option Z :=
  if (l <? r)%Z then
    match fuel with
    | O => None
    | S fuel' =>
        let m := sar1 (l + r) in
        if elem_lt arr m x
        then lowerBound_while fuel' arr x (m + 1)%Z r
        else lowerBound_while fuel' arr x l m
    end
  else Some l.

Definition lowerBound (fuel : nat) (arr : list R) (x : R) : option Z :=
  lowerBound_while fuel arr x 0%Z (len arr).

Fixpoint upperBound_while (fuel : nat) (arr : list R) (x : R) (l r : Z)
  {struct fuel} : option Z :=
  if (l <? r)%Z then
    match fuel with
    | O => None
    | S fuel' =>
        let m := sar1 (l + r) in
        if elem_le arr m x
        then upperBound_while fuel' arr x (m + 1)%Z r
        else upperBound_while fuel' arr x l m
    end
  else Some l.

Definition upperBound (fuel : nat) (arr : list R) (x : R) : option Z :=
  upperBound_while fuel arr x 0%Z (len arr).

Definition getCountAtThreshold (fuel : nat) (mode : FilterMode)
  (sortedValues : list R) (t : R) : option Z :=
  if (len sortedValues =? 0)%Z then Some 0%Z
  else if String.eqb mode "lt" then lowerBound fuel sortedValues t
  else if String.eqb mode "lte" then upperBound fuel sortedValues t
  else if String.eqb mode "gt" then
    match upperBound fuel sortedValues t with
    | Some i => Some (Z.max 0 (len sortedValues - i))
    | None => None
    end
  else if String.eqb mode "gte" then
    match lowerBound fuel sortedValues t with
    | Some i => Some (Z.max 0 (len sortedValues - i))
    | None => None
    end
  else upperBound fuel sortedValues t.

Arguments getCountAtThreshold fuel%_nat mode%_string sortedValues t%_R.

(** On finite reals every intermediate value of [thresholdToPercentage] is
    finite: the divisor [max - min] is guarded by the first test, and the
    logarithms are taken of positive numbers only, where [ln max <> ln min]
    as [max <> min]. *)
Definition thresholdToPercentage (min max t : R) (logScale : bool) : R :=
  if Reqb max min then 0
  else if logScale && Rltb 0 min && Rltb 0 max && Rltb 0 t then
    let logMin := ln min in
    let logMax := ln max in
    let logT := ln t in
    ((logT - logMin) / (logMax - logMin)) * 100
  else ((t - min) / (max - min)) * 100.

(** [Math.max(6, Math.round((containerWidth || 0) / 40))] *)
Definition autoTickCount (containerWidth : R) : Z :=
  Z.max 6
    (Math_round ((if Reqb containerWidth 0 then 0 else containerWidth) / 40)).

(** [for (let i = 0; i < count; i++) ticks.push(f(i))], run for the
    [fuel] iterations that remain. *)
Fixpoint ticks_loop (fuel : nat) (i count : Z) (f : Z -> number)
  (ticks : list number) : list number :=
  match fuel with
  | O => ticks
  | S fuel' =>
      if (i <? count)%Z
      then ticks_loop fuel' (i + 1)%Z count f (ticks ++ [f i])
      else ticks
  end.

(** [xAxisTicks] is a number of ticks, an integer; [None] is [undefined]. *)
Definition computeTicks (minValue maxValue : R) (logScale : bool)
  (containerWidth : R) (xAxisTicks : option Z) : option (list number) :=
  if Reqb maxValue minValue then None
  else
    let count := match xAxisTicks with
                 | Some c => c
                 | None => autoTickCount containerWidth
                 end in
    if (count =? 0)%Z || (count <? 2)%Z then None
    else
      let frac i := div (Fin (IZR i)) (Fin (IZR (count - 1))) in
      if logScale && Rltb 0 minValue then
        let logMin := Math_log (Fin minValue) in
        let logMax := Math_log (Fin maxValue) in
        Some (ticks_loop (Z.to_nat count) 0%Z count
                (fun i =>
                   Math_exp (add logMin (mul (frac i) (sub logMax logMin))))
                [])
      else
        Some (ticks_loop (Z.to_nat count) 0%Z count
                (fun i => add (Fin minValue)
                            (mul (frac i) (sub (Fin maxValue) (Fin minValue))))
                []).

(** ** The component: distribution builder and drag handler *)

Record DistributionPoint : Type := mkPoint { value : R; count : Z }.

Record Distribution : Type := mkDistribution {
  chartData : list DistributionPoint;
  minValue : R;
  maxValue : R;
  sortedValues : list R
}.

(** [[...values].sort((a, b) => a - b)].  The comparator is a consistent
    total order on finite numbers, so the result is the ascending
    permutation of the input whatever algorithm the engine runs; insertion
    is used here. *)
Definition compareFn (a b : R) : R := a - b.

Fixpoint insert (a : R) (l : list R) : list R :=
  match l with
  | [] => [a]
  | b :: l' => if Rleb (compareFn a b) 0 then a :: l else b :: insert a l'
  end.

Definition sort (values : list R) : list R := fold_right insert [] values.

(** [arr[i]!] where the index is known to be in range; the default is never
    read by the code below. *)
Definition at_ (arr : list R) (i : Z) : R :=
  match get arr i with Some v => v | None => 0 end.

(** [sorted.forEach((value, index) =>
      data.push({ value, count: index + 1 }))] *)
Fixpoint forEach_push (rest : list R) (index : Z)
  (data : list DistributionPoint) : list DistributionPoint :=
  match rest with
  | [] => data
  | v :: rest' =>
      forEach_push rest' (index + 1)%Z (data ++ [mkPoint v (index + 1)%Z])
  end.

(** [while (currentIndex < sorted.length && sorted[currentIndex]! <= binValue)
    currentIndex++] *)
Fixpoint advance (fuel : nat) (sorted : list R) (binValue : R)
  (currentIndex : Z) : Z :=
  match fuel with
  | O => currentIndex
  | S fuel' =>
      if (currentIndex <? len sorted)%Z && elem_le sorted currentIndex binValue
      then advance fuel' sorted binValue (currentIndex + 1)%Z
      else currentIndex
  end.

(** [for (let i = 0; i <= binCount; i++) { ... }] with the running
    [currentIndex]; the inner loop gets [sorted.length] steps, which is all
    it can take. *)
Fixpoint bins_loop (fuel : nat) (i : Z) (sorted : list R) (min binSize : R)
  (binCount : Z) (currentIndex : Z) (data : list DistributionPoint)
  : list DistributionPoint :=
  match fuel with
  | O => data
  | S fuel' =>
      if (i <=? binCount)%Z then
        let binValue := min + IZR i * binSize in
        let currentIndex' :=
          advance (length sorted) sorted binValue currentIndex in
        bins_loop fuel' (i + 1)%Z sorted min binSize binCount currentIndex'
          (data ++ [mkPoint binValue currentIndex'])
      else data
  end.

(** The [useMemo] that computes [chartData], [minValue], [maxValue] and
    [sortedValues] from [values]. *)
Definition buildDistribution (values : list R) : Distribution :=
  if (len values =? 0)%Z then mkDistribution [] 0 0 []
  else
    let sorted := sort values in
    let min := at_ sorted 0 in
    let max := at_ sorted (len sorted - 1) in
    if Reqb min max then
      mkDistribution [mkPoint min 0; mkPoint min (len sorted)]
        min min sorted
    else
      let data :=
        if (len sorted <=? 50)%Z then forEach_push sorted 0%Z []
        else
          let binCount := Z.min 100 (len sorted) in
          let binSize := (max - min) / IZR binCount in
          bins_loop (Z.to_nat (binCount + 1)) 0%Z sorted min binSize
            binCount 0%Z []
      in
      mkDistribution data min max sorted.

(** [handleMouseMove]: the fraction
    [Math.max(0, Math.min(1, x / rect.width || 1))] with
    [x = e.clientX - rect.left].  [/] binds tighter than [||]. *)
Definition percentage (clientX rectLeft rectWidth : R) : number :=
  let x := clientX - rectLeft in
  Math_max (Fin 0)
    (Math_min (Fin 1) (or_else (div (Fin x) (Fin rectWidth)) (Fin 1))).

(** [handleMouseMove]: the threshold interpolated from the fraction. *)
Definition newThreshold (minValue maxValue : R) (logScale : bool)
  (percentage : number) : number :=
  if logScale && Rltb 0 minValue then
    let logMin := Math_log (Fin minValue) in
    let logMax := Math_log (Fin maxValue) in
    Math_exp (add logMin (mul percentage (sub logMax logMin)))
  else
    add (Fin minValue) (mul percentage (sub (Fin maxValue) (Fin minValue))).

(** ** Specification-side definitions *)

(** The number of elements of [s] that satisfy [p]. *)
Definition count_if (p : R -> bool) (s : list R) : Z :=
  Z.of_nat (length (filter p s)).

(** [i] is the smallest index whose element satisfies [P], or the length of
    [s] when no element does. *)
Definition first_index (P : R -> Prop) (s : list R) (i : Z) : Prop :=
  (0 <= i <= len s)%Z /\
  (forall j v, (j < i)%Z -> get s j = Some v -> ~ P v) /\
  (forall v, get s i = Some v -> P v).

(** The two loops of the binary searches differ in the comparison only;
    [bisect_while] is their common shape, used in the proofs. *)
Fixpoint bisect_while (fuel : nat) (p : R -> bool) (arr : list R) (l r : Z)
  {struct fuel} : option Z :=
  if (l <? r)%Z then
    match fuel with
    | O => None
    | S fuel' =>
        let m := sar1 (l + r) in
        if match get arr m with Some v => p v | None => false end
        then bisect_while fuel' p arr (m + 1)%Z r
        else bisect_while fuel' p arr l m
    end
  else Some l.

(** The largest array the midpoint [(l + r) >> 1] is exact for: beyond
    [2^30] elements [l + r] can reach [2^31] and wraps to a negative
    index. *)
Definition max_length : Z := (2 ^ 30)%Z.

(** The counts the threshold counter is specified to return. *)
Definition count_lt (s : list R) (t : R) : Z := count_if (fun v => Rltb v t) s.
Definition count_le (s : list R) (t : R) : Z := count_if (fun v => Rleb v t) s.
Definition count_gt (s : list R) (t : R) : Z := count_if (fun v => Rltb t v) s.
Definition count_ge (s : list R) (t : R) : Z := count_if (fun v => Rleb t v) s.

Definition spec_count (mode : FilterMode) (s : list R) (t : R) : Z :=
  if String.eqb mode "lt" then count_lt s t
  else if String.eqb mode "gt" then count_gt s t
  else if String.eqb mode "gte" then count_ge s t
  else count_le s t.

Arguments spec_count mode%_string s t.

(** The array of the unit tests, [[1, 2, 2, 5, 9]]. *)
Definition test_arr : list R := [1; 2; 2; 5; 9].

(** A collection in the binned regime: a zero and fifty ones. *)
Definition binned_values : list R := 0 :: repeat 1 50.

(** The tick count [computeTicks] settles on:
    [xAxisTicks ?? autoTickCount]. *)
Definition resolved_count (containerWidth : R) (xAxisTicks : option Z) : Z :=
  match xAxisTicks with
  | Some c => c
  | None => autoTickCount containerWidth
  end.

(** The tick at index [i] out of [count], in the linear regime and in the
    logarithmic regime with positive bounds. *)
Definition linear_tick (min max : R) (count i : Z) : R :=
  min + (IZR i / IZR (count - 1)) * (max - min).

Definition log_tick (min max : R) (count i : Z) : R :=
  exp (ln min + (IZR i / IZR (count - 1)) * (ln max - ln min)).

(** The cumulative counts do not decrease along the series. *)
Definition counts_nondecreasing (data : list DistributionPoint) : Prop :=
  Sorted Z.le (map count data).

(** The [i]-th of the evenly spaced boundaries of [b] bins over
    [[min, max]]. *)
Definition bin_boundary (min max : R) (b i : Z) : R :=
  min + IZR i * (max - min) / IZR b.

(** ** Further code of the component and of the demo page *)

(** The component's [useState(initialThreshold ?? (minValue + maxValue) / 2)];
    [None] is an absent [initialThreshold]. *)
Definition initialThresholdState (initialThreshold : option R)
  (minValue maxValue : R) : R :=
  match initialThreshold with
  | Some t => t
  | None => (minValue + maxValue) / 2
  end.

(** The demo page's [Math.max(3, Math.min(1000, parseInt(...) || 200))];
    the argument is what [parseInt] returned, an integer or [NaN]. *)
Definition dataPointsCount_onChange (parsed : number) : number :=
  Math_max (Fin 3) (Math_min (Fin 1000) (or_else parsed (Fin 200))).

(** [t] put into [s] in front of index [i]. *)
Definition insert_at (s : list R) (i : Z) (t : R) : list R :=
  firstn (Z.to_nat i) s ++ t :: skipn (Z.to_nat i) s.

(** How many times [t] occurs in [s]. *)
Definition multiplicity (s : list R) (t : R) : Z :=
  count_if (fun v => Reqb v t) s.

(** * Proofs *)

(** ** Comparisons and integer helpers *)

Section Comparisons.

Lemma Rltb_true x y : Rltb x y = true <-> x < y.
Proof. unfold Rltb; destruct (Rlt_dec x y); split; intros; try easy. Qed.

Lemma Rltb_false x y : Rltb x y = false <-> y <= x.
Proof.
  unfold Rltb; destruct (Rlt_dec x y); split; intros; try easy; lra.
Qed.

Lemma Rleb_true x y : Rleb x y = true <-> x <= y.
Proof. unfold Rleb; destruct (Rle_dec x y); split; intros; try easy. Qed.

Lemma Rleb_false x y : Rleb x y = false <-> y < x.
Proof.
  unfold Rleb; destruct (Rle_dec x y); split; intros; try easy; lra.
Qed.

Lemma Reqb_true x y : Reqb x y = true <-> x = y.
Proof. unfold Reqb; destruct (Req_dec_T x y); split; intros; try easy. Qed.

Lemma Reqb_false x y : Reqb x y = false <-> x <> y.
Proof. unfold Reqb; destruct (Req_dec_T x y); split; intros; try easy. Qed.

Lemma Rltb_negb_Rleb x y : Rltb x y = negb (Rleb y x).
Proof.
  destruct (Rleb y x) eqn:E; simpl.
  - apply Rltb_false. now apply Rleb_true.
  - apply Rltb_true. now apply Rleb_false.
Qed.

End Comparisons.

(** Decide closed comparisons of real constants. *)
Ltac decide_with c Htrue Hfalse :=
  first [ replace c with true by (symmetry; apply Htrue; lra)
        | replace c with false by (symmetry; apply Hfalse; lra) ].

Ltac rcmp :=
  repeat match goal with
    | |- context [Rltb ?a ?b] => decide_with (Rltb a b) Rltb_true Rltb_false
    | |- context [Rleb ?a ?b] => decide_with (Rleb a b) Rleb_true Rleb_false
    | |- context [Reqb ?a ?b] => decide_with (Reqb a b) Reqb_true Reqb_false
    end.

Section Int32.

Local Open Scope Z_scope.

Lemma toInt32_small z : 0 <= z < 2 ^ 31 -> toInt32 z = z.
Proof.
  intros H. unfold toInt32.
  rewrite Z.mod_small; lia.
Qed.

Lemma sar1_small z : 0 <= z < 2 ^ 31 -> sar1 z = z / 2.
Proof.
  intros H. unfold sar1. rewrite toInt32_small by exact H.
  now rewrite Z.shiftr_div_pow2.
Qed.

(** Below [max_length] the midpoint is the mathematical one. *)
Lemma midpoint_exact l r :
  0 <= l -> l < r -> r <= max_length ->
  2 * sar1 (l + r) <= l + r < 2 * sar1 (l + r) + 2.
Proof.
  unfold max_length. intros Hl Hlr Hr.
  rewrite sar1_small by lia.
  pose proof (Z.div_mod (l + r) 2).
  pose proof (Z.mod_pos_bound (l + r) 2). lia.
Qed.

(** Past [2^31] the truncation makes the midpoint negative. *)
Lemma sar1_wraps : sar1 (2 ^ 31) = - 2 ^ 30.
Proof. reflexivity. Qed.

End Int32.

(** ** Arrays *)

Section Arrays.

Context {A : Type}.
Implicit Types (s : list A) (j : Z).

Lemma get_of_nat s (n : nat) : get s (Z.of_nat n) = nth_error s n.
Proof.
  unfold get. destruct (Z.ltb_spec (Z.of_nat n) 0); [lia|].
  now rewrite Nat2Z.id.
Qed.

Lemma get_Some_range s j v : get s j = Some v -> (0 <= j < len s)%Z.
Proof.
  unfold get, len. destruct (Z.ltb_spec j 0); [discriminate|].
  intros E. assert (Z.to_nat j < length s)%nat
    by (apply nth_error_Some; congruence).
  lia.
Qed.

Lemma get_in_range s j : (0 <= j < len s)%Z -> exists v, get s j = Some v.
Proof.
  unfold get, len. intros H. destruct (Z.ltb_spec j 0); [lia|].
  destruct (nth_error s (Z.to_nat j)) eqn:E; [eauto|].
  apply nth_error_None in E. lia.
Qed.

Lemma get_None_out s j : (j < 0 \/ len s <= j)%Z -> get s j = None.
Proof.
  unfold get, len. intros H. destruct (Z.ltb_spec j 0); [reflexivity|].
  apply nth_error_None. lia.
Qed.

Lemma len_nonneg s : (0 <= len s)%Z.
Proof. unfold len. lia. Qed.

End Arrays.

(** In an ascending array an earlier element is at most a later one. *)
Lemma sorted_nth_le (s : list R) :
  Sorted Rle s ->
  forall (j k : nat) a b, (j <= k)%nat ->
    nth_error s j = Some a -> nth_error s k = Some b -> a <= b.
Proof.
  intros Hs. apply Sorted_StronglySorted in Hs;
    [| intros x y z; apply Rle_trans].
  induction Hs as [| c s Hs IH Hall]; intros j k a b Hjk Ha Hb.
  - destruct j; discriminate.
  - destruct j as [| j], k as [| k]; simpl in *.
    + injection Ha as <-. injection Hb as <-. lra.
    + injection Ha as <-. rewrite Forall_forall in Hall.
      apply Hall. eapply nth_error_In; eauto.
    + lia.
    + eapply IH; [| eassumption | eassumption]. lia.
Qed.

Lemma sorted_get_le (s : list R) (j k : Z) a b :
  Sorted Rle s -> (j <= k)%Z -> get s j = Some a -> get s k = Some b -> a <= b.
Proof.
  intros Hs Hjk Ha Hb.
  pose proof (get_Some_range _ _ _ Ha). pose proof (get_Some_range _ _ _ Hb).
  rewrite <- (Z2Nat.id j) in Ha by lia. rewrite <- (Z2Nat.id k) in Hb by lia.
  rewrite get_of_nat in Ha, Hb.
  eapply (sorted_nth_le s Hs (Z.to_nat j) (Z.to_nat k)); eauto. lia.
Qed.

(** A predicate that holds exactly on the first [n] elements is satisfied
    by [n] elements. *)
Lemma filter_prefix_length (p : R -> bool) (s : list R) :
  forall n : nat, (n <= length s)%nat ->
    (forall j v, (j < n)%nat -> nth_error s j = Some v -> p v = true) ->
    (forall j v, (n <= j)%nat -> nth_error s j = Some v -> p v = false) ->
    length (filter p s) = n.
Proof.
  induction s as [| a s IH]; intros n Hn Ht Hf; simpl in *.
  - lia.
  - destruct n as [| n].
    + rewrite (Hf 0%nat a) by (simpl; auto with arith).
      apply IH; [lia | intros; lia |].
      intros j v _ Hj. apply (Hf (S j)); [lia | exact Hj].
    + rewrite (Ht 0%nat a) by (simpl; auto with arith). simpl. f_equal.
      apply IH; [lia | |].
      * intros j v Hlt Hj. apply (Ht (S j)); [lia | exact Hj].
      * intros j v Hle Hj. apply (Hf (S j)); [lia | exact Hj].
Qed.

Lemma count_if_prefix (p : R -> bool) (s : list R) (i : Z) :
  (0 <= i <= len s)%Z ->
  (forall j v, (j < i)%Z -> get s j = Some v -> p v = true) ->
  (forall j v, (i <= j)%Z -> get s j = Some v -> p v = false) ->
  count_if p s = i.
Proof.
  intros Hi Ht Hf. unfold count_if.
  rewrite (filter_prefix_length p s (Z.to_nat i)).
  - lia.
  - unfold len in Hi. lia.
  - intros j v Hj E. apply (Ht (Z.of_nat j)); [lia | now rewrite get_of_nat].
  - intros j v Hj E. apply (Hf (Z.of_nat j)); [lia | now rewrite get_of_nat].
Qed.

Lemma count_if_negb (p : R -> bool) (s : list R) :
  (count_if p s + count_if (fun v => negb (p v)) s = len s)%Z.
Proof.
  unfold count_if, len. induction s as [| a s IH]; [reflexivity|].
  cbn [filter]. destruct (p a); cbn [negb length]; lia.
Qed.

Lemma count_if_ext (p q : R -> bool) (s : list R) :
  (forall v, p v = q v) -> count_if p s = count_if q s.
Proof.
  intros E. unfold count_if. now rewrite (filter_ext p q E).
Qed.

Lemma count_if_range (p : R -> bool) (s : list R) :
  (0 <= count_if p s <= len s)%Z.
Proof.
  unfold count_if, len. pose proof (filter_length_le p s). lia.
Qed.

Lemma count_gt_le s t : (count_gt s t = len s - count_le s t)%Z.
Proof.
  unfold count_gt, count_le.
  rewrite (count_if_ext _ (fun v => negb (Rleb v t)))
    by (intros; apply Rltb_negb_Rleb).
  pose proof (count_if_negb (fun v => Rleb v t) s) as H. cbv beta in H. lia.
Qed.

Lemma count_ge_lt s t : (count_ge s t = len s - count_lt s t)%Z.
Proof.
  unfold count_ge, count_lt.
  rewrite (count_if_ext (fun v => Rleb t v) (fun v => negb (Rltb v t))).
  - pose proof (count_if_negb (fun v => Rltb v t) s) as H. cbv beta in H. lia.
  - intros v. rewrite Rltb_negb_Rleb. now rewrite negb_involutive.
Qed.

(** ** The binary searches *)

Section Bisect.

Local Open Scope Z_scope.

Variable p : R -> bool.
Variable s : list R.

(** The array is within the length the midpoint is exact for, and [p]
    holds on an initial segment of it. *)
Hypothesis Hlen : len s <= max_length.
Hypothesis Hmono :
  forall j k a b, j <= k -> get s j = Some a -> get s k = Some b ->
                  p b = true -> p a = true.

Lemma bisect_while_spec (fuel : nat) :
  forall l r,
    0 <= l <= r -> r <= len s -> r - l < 2 ^ Z.of_nat fuel ->
    (forall j v, j < l -> get s j = Some v -> p v = true) ->
    (forall j v, r <= j -> get s j = Some v -> p v = false) ->
    exists i,
      bisect_while fuel p s l r = Some i /\ l <= i <= r /\
      (forall j v, j < i -> get s j = Some v -> p v = true) /\
      (forall j v, i <= j -> get s j = Some v -> p v = false).
Proof.
  induction fuel as [| fuel IH]; intros l r Hlr Hr Hsz Ht Hf.
  - simpl in *. destruct (Z.ltb_spec l r); [lia|].
    exists l. repeat split; auto; try lia.
    intros j v Hj. apply Hf. lia.
  - cbn [bisect_while]. destruct (Z.ltb_spec l r) as [Hlt | Hge].
    + pose proof (midpoint_exact l r) as Hm.
      set (m := sar1 (l + r)) in *. clearbody m.
      rewrite Nat2Z.inj_succ, Z.pow_succ_r in Hsz by lia.
      destruct (get_in_range s m) as [v Ev]; [lia|].
      rewrite Ev. destruct (p v) eqn:Epv.
      * destruct (IH (m + 1) r) as (i & Ei & Hi & Hti & Hfi); try lia; auto.
        -- intros j w Hj Ew. apply (Hmono j m w v); auto. lia.
        -- exists i. repeat split; auto; lia.
      * destruct (IH l m) as (i & Ei & Hi & Hti & Hfi); try lia; auto.
        -- intros j w Hj Ew. destruct (p w) eqn:Epw; [| reflexivity].
           rewrite (Hmono m j v w Hj Ev Ew Epw) in Epv. discriminate.
        -- exists i. repeat split; auto; lia.
    + exists l. repeat split; auto; try lia.
      intros j v Hj. apply Hf. lia.
Qed.

(** Started on the whole array, with fuel for [log2] of its length, the
    loop returns the number of elements that satisfy [p]. *)
Lemma bisect_whole (fuel : nat) :
  len s < 2 ^ Z.of_nat fuel ->
  bisect_while fuel p s 0 (len s) = Some (count_if p s) /\
  (forall j v, j < count_if p s -> get s j = Some v -> p v = true) /\
  (forall j v, count_if p s <= j -> get s j = Some v -> p v = false).
Proof.
  intros Hfuel. pose proof (len_nonneg s).
  destruct (bisect_while_spec fuel 0 (len s)) as (i & Ei & Hi & Hti & Hfi);
    try lia.
  - intros j v Hj Ev. apply get_Some_range in Ev. lia.
  - intros j v Hj Ev. apply get_Some_range in Ev. lia.
  - rewrite (count_if_prefix p s i); auto.
Qed.

End Bisect.

Lemma lowerBound_while_bisect fuel arr x :
  forall l r,
    lowerBound_while fuel arr x l r
    = bisect_while fuel (fun v => Rltb v x) arr l r.
Proof.
  induction fuel as [| fuel IH]; intros l r; simpl; [reflexivity|].
  unfold elem_lt. now rewrite !IH.
Qed.

Lemma upperBound_while_bisect fuel arr x :
  forall l r,
    upperBound_while fuel arr x l r
    = bisect_while fuel (fun v => Rleb v x) arr l r.
Proof.
  induction fuel as [| fuel IH]; intros l r; simpl; [reflexivity|].
  unfold elem_le. now rewrite !IH.
Qed.

(** Why the length bound: on the window [[2^30, 2^30 + 1)] the sum
    [l + r] is [2^31 + 1], the truncated midpoint is negative, the element
    read is [undefined], and the loop leaves with [l] whatever the element
    at index [2^30] is. *)
Lemma lowerBound_while_past_max_length (fuel : nat) (arr : list R) (x : R) :
  lowerBound_while (S fuel) arr x (2 ^ 30)%Z (2 ^ 30 + 1)%Z = Some (2 ^ 30)%Z.
Proof.
  cbn [lowerBound_while].
  change (2 ^ 30 <? 2 ^ 30 + 1)%Z with true. cbv iota.
  change (sar1 (2 ^ 30 + (2 ^ 30 + 1))) with (- 2 ^ 30)%Z.
  unfold elem_lt. rewrite get_None_out by (left; reflexivity).
  destruct fuel; reflexivity.
Qed.

(** Within the length bound 31 iterations always suffice. *)
Lemma fuel_31_suffices (s : list R) :
  (len s <= max_length)%Z -> (len s < 2 ^ Z.of_nat 31)%Z.
Proof.
  unfold max_length. intros H.
  change (2 ^ Z.of_nat 31)%Z with (2 * 2 ^ 30)%Z. lia.
Qed.

Section SortedSearch.

Variable s : list R.
Variable t : R.
Variable fuel : nat.
Hypothesis Hsorted : Sorted Rle s.
Hypothesis Hlen : (len s <= max_length)%Z.
Hypothesis Hfuel : (len s < 2 ^ Z.of_nat fuel)%Z.

Lemma lowerBound_sorted :
  lowerBound fuel s t = Some (count_lt s t) /\
  first_index (fun v => t <= v) s (count_lt s t).
Proof.
  unfold lowerBound, count_lt. rewrite lowerBound_while_bisect.
  destruct (bisect_whole (fun v => Rltb v t) s Hlen) with (fuel := fuel)
    as (E & Ht & Hf); auto.
  - intros j k a b Hjk Ea Eb Hb. apply Rltb_true in Hb. apply Rltb_true.
    pose proof (sorted_get_le s j k a b Hsorted Hjk Ea Eb). lra.
  - split; [exact E|]. split; [apply count_if_range|]. split.
    + intros j v Hj Ev Hv. apply Ht in Ev; auto.
      apply Rltb_true in Ev. lra.
    + intros v Ev. apply Hf in Ev; [| lia]. now apply Rltb_false in Ev.
Qed.

Lemma upperBound_sorted :
  upperBound fuel s t = Some (count_le s t) /\
  first_index (fun v => t < v) s (count_le s t).
Proof.
  unfold upperBound, count_le. rewrite upperBound_while_bisect.
  destruct (bisect_whole (fun v => Rleb v t) s Hlen) with (fuel := fuel)
    as (E & Ht & Hf); auto.
  - intros j k a b Hjk Ea Eb Hb. apply Rleb_true in Hb. apply Rleb_true.
    pose proof (sorted_get_le s j k a b Hsorted Hjk Ea Eb). lra.
  - split; [exact E|]. split; [apply count_if_range|]. split.
    + intros j v Hj Ev Hv. apply Ht in Ev; auto.
      apply Rleb_true in Ev. lra.
    + intros v Ev. apply Hf in Ev; [| lia]. now apply Rleb_false in Ev.
Qed.

Lemma getCountAtThreshold_sorted (mode : FilterMode) :
  getCountAtThreshold fuel mode s t = Some (spec_count mode s t).
Proof.
  unfold getCountAtThreshold, spec_count.
  destruct (Z.eqb_spec (len s) 0) as [E0 | N0].
  - assert (s = []) as -> by (destruct s; [reflexivity | discriminate]).
    now repeat destruct (String.eqb _ _).
  - destruct lowerBound_sorted as [El _], upperBound_sorted as [Eu _].
    rewrite El, Eu.
    pose proof (count_if_range (fun v => Rltb v t) s).
    pose proof (count_if_range (fun v => Rleb v t) s).
    fold (count_lt s t) in *. fold (count_le s t) in *.
    destruct (String.eqb mode "lt") eqn:E1; [reflexivity|].
    destruct (String.eqb mode "lte") eqn:E2.
    { apply String.eqb_eq in E2. subst mode. reflexivity. }
    destruct (String.eqb mode "gt") eqn:E3.
    { rewrite count_gt_le. f_equal. lia. }
    destruct (String.eqb mode "gte") eqn:E4.
    { rewrite count_ge_lt. f_equal. lia. }
    reflexivity.
Qed.

End SortedSearch.

(** ** The threshold counter (claims C1, C2, C3) *)

Lemma test_arr_sorted : Sorted Rle test_arr.
Proof. unfold test_arr. repeat constructor; lra. Defined.

Lemma test_arr_len : (len test_arr <= max_length)%Z.
Proof. vm_compute. discriminate. Defined.

Lemma test_arr_fuel : (len test_arr < 2 ^ Z.of_nat 3)%Z.
Proof. vm_compute. reflexivity. Defined.

(** Evaluate a count on a literal array. *)
Ltac count_eval :=
  unfold count_lt, count_le, count_gt, count_ge, count_if, test_arr;
  cbn [filter]; rcmp; reflexivity.

(** C2: on an ascending array (of at most [2^30] elements, given fuel for
    the halvings) [lowerBound] returns the smallest index whose element is
    [>= t], which is the number of elements [< t] and is the length when no
    element is [>= t]; [upperBound] returns the smallest index whose
    element is [> t], the number of elements [<= t]. *)
Theorem bounds_are_first_indices (fuel : nat) (s : list R) (t : R) :
  Sorted Rle s ->
  (len s <= max_length)%Z ->
  (len s < 2 ^ Z.of_nat fuel)%Z ->
  (lowerBound fuel s t = Some (count_lt s t) /\
   first_index (fun v => v >= t) s (count_lt s t)) /\
  (upperBound fuel s t = Some (count_le s t) /\
   first_index (fun v => v > t) s (count_le s t)).
Proof.
  intros Hs Hl Hf.
  destruct (lowerBound_sorted s t fuel Hs Hl Hf) as (El & Rl & Bl & Al).
  destruct (upperBound_sorted s t fuel Hs Hl Hf) as (Eu & Ru & Bu & Au).
  repeat split; try apply Rl; try apply Ru; try assumption.
  - intros j v Hj Ev Hv. apply (Bl j v Hj Ev). lra.
  - intros v Ev. apply Rle_ge. auto.
Qed.

Lemma bounds_are_first_indices_witness :
  Sorted Rle test_arr /\
  (lowerBound 3 test_arr 2 = Some (count_lt test_arr 2) /\
   first_index (fun v => v >= 2) test_arr (count_lt test_arr 2)) /\
  (upperBound 3 test_arr 2 = Some (count_le test_arr 2) /\
   first_index (fun v => v > 2) test_arr (count_le test_arr 2)).
Proof.
  split; [exact test_arr_sorted |].
  exact (bounds_are_first_indices 3 test_arr 2
           test_arr_sorted test_arr_len test_arr_fuel).
Defined.

(** The expectations of [cumulative-utils.test.ts]. *)
Example lowerBound_tests :
  lowerBound 3 test_arr 0 = Some 0%Z /\ lowerBound 3 test_arr 2 = Some 1%Z /\
  lowerBound 3 test_arr 3 = Some 3%Z /\ lowerBound 3 test_arr 10 = Some 5%Z.
Proof.
  repeat split;
    match goal with |- lowerBound _ _ ?t = _ =>
      rewrite (proj1 (lowerBound_sorted test_arr t 3
                        test_arr_sorted test_arr_len test_arr_fuel))
    end; f_equal; count_eval.
Qed.

Example upperBound_tests :
  upperBound 3 test_arr 0 = Some 0%Z /\ upperBound 3 test_arr 2 = Some 3%Z /\
  upperBound 3 test_arr 5 = Some 4%Z /\ upperBound 3 test_arr 10 = Some 5%Z.
Proof.
  repeat split;
    match goal with |- upperBound _ _ ?t = _ =>
      rewrite (proj1 (upperBound_sorted test_arr t 3
                        test_arr_sorted test_arr_len test_arr_fuel))
    end; f_equal; count_eval.
Qed.

(** C1: on an ascending array [getCountAtThreshold] returns the number of
    elements [< t], [<= t], [> t], [>= t] for the modes [lt], [lte], [gt],
    [gte]; it returns 0 on the empty array, and any other mode gives what
    [lte] gives. *)
Theorem getCountAtThreshold_counts (fuel : nat) (s : list R) (t : R) :
  Sorted Rle s ->
  (len s <= max_length)%Z ->
  (len s < 2 ^ Z.of_nat fuel)%Z ->
  getCountAtThreshold fuel "lt" s t = Some (count_lt s t) /\
  getCountAtThreshold fuel "lte" s t = Some (count_le s t) /\
  getCountAtThreshold fuel "gt" s t = Some (count_gt s t) /\
  getCountAtThreshold fuel "gte" s t = Some (count_ge s t) /\
  (forall mode : FilterMode,
      mode <> "lt"%string -> mode <> "lte"%string ->
      mode <> "gt"%string -> mode <> "gte"%string ->
      getCountAtThreshold fuel mode s t = getCountAtThreshold fuel "lte" s t) /\
  (forall (fuel' : nat) (mode : FilterMode),
      getCountAtThreshold fuel' mode [] t = Some 0%Z).
Proof.
  intros Hs Hl Hf.
  repeat split;
    try (rewrite (getCountAtThreshold_sorted s t fuel Hs Hl Hf); reflexivity).
  - intros mode N1 N2 N3 N4. unfold getCountAtThreshold.
    apply String.eqb_neq in N1, N2, N3, N4. rewrite N1, N2, N3, N4.
    reflexivity.
Qed.

Lemma getCountAtThreshold_counts_witness :
  Sorted Rle test_arr /\
  getCountAtThreshold 3 "lt" test_arr 2 = Some (count_lt test_arr 2) /\
  getCountAtThreshold 3 "gte" test_arr 5 = Some (count_ge test_arr 5).
Proof.
  split; [exact test_arr_sorted |].
  pose proof (getCountAtThreshold_counts 3 test_arr 2
                test_arr_sorted test_arr_len test_arr_fuel) as H2.
  pose proof (getCountAtThreshold_counts 3 test_arr 5
                test_arr_sorted test_arr_len test_arr_fuel) as H5.
  split; [apply H2 | apply H5].
Defined.

Example getCountAtThreshold_tests :
  getCountAtThreshold 3 "lt" test_arr 2 = Some 1%Z /\
  getCountAtThreshold 3 "lte" test_arr 2 = Some 3%Z /\
  getCountAtThreshold 3 "gt" test_arr 5 = Some 1%Z /\
  getCountAtThreshold 3 "gte" test_arr 5 = Some 2%Z.
Proof.
  repeat split;
    rewrite (getCountAtThreshold_sorted test_arr _ 3
               test_arr_sorted test_arr_len test_arr_fuel);
    unfold spec_count; cbn [String.eqb Ascii.eqb Bool.eqb];
    f_equal; count_eval.
Qed.

(** C3: on an ascending array the counts for [lt] and [gte] add up to the
    length, and so do the counts for [lte] and [gt]. *)
Theorem complementary_counts (fuel : nat) (s : list R) (t : R) :
  Sorted Rle s ->
  (len s <= max_length)%Z ->
  (len s < 2 ^ Z.of_nat fuel)%Z ->
  exists a b c d : Z,
    getCountAtThreshold fuel "lt" s t = Some a /\
    getCountAtThreshold fuel "gte" s t = Some b /\
    (a + b = len s)%Z /\
    getCountAtThreshold fuel "lte" s t = Some c /\
    getCountAtThreshold fuel "gt" s t = Some d /\
    (c + d = len s)%Z.
Proof.
  intros Hs Hl Hf.
  exists (count_lt s t), (count_ge s t), (count_le s t), (count_gt s t).
  repeat split;
    try (rewrite (getCountAtThreshold_sorted s t fuel Hs Hl Hf); reflexivity).
  - rewrite count_ge_lt. lia.
  - rewrite count_gt_le. lia.
Qed.

Lemma complementary_counts_witness :
  Sorted Rle test_arr /\
  exists a b c d : Z,
    getCountAtThreshold 3 "lt" test_arr 2 = Some a /\
    getCountAtThreshold 3 "gte" test_arr 2 = Some b /\
    (a + b = len test_arr)%Z /\
    getCountAtThreshold 3 "lte" test_arr 2 = Some c /\
    getCountAtThreshold 3 "gt" test_arr 2 = Some d /\
    (c + d = len test_arr)%Z.
Proof.
  split; [exact test_arr_sorted |].
  exact (complementary_counts 3 test_arr 2
           test_arr_sorted test_arr_len test_arr_fuel).
Defined.

(** ** The scale mapper (claims C4, C5, C10) *)

Section RealHelpers.

Lemma unit_fraction a b : 0 <= a <= b -> 0 < b -> 0 <= a / b <= 1.
Proof.
  intros Ha Hb. pose proof (Rinv_0_lt_compat b Hb) as Hi.
  assert (E : b * / b = 1) by (field; lra).
  unfold Rdiv. split; nra.
Qed.

Lemma ln_le x y : 0 < x -> x <= y -> ln x <= ln y.
Proof.
  intros Hx [Hlt | ->]; [left; now apply ln_increasing | right; reflexivity].
Qed.

End RealHelpers.

(** The three branches of [thresholdToPercentage]. *)
Lemma thresholdToPercentage_degenerate min t logScale :
  thresholdToPercentage min min t logScale = 0.
Proof. unfold thresholdToPercentage. now rcmp. Qed.

Lemma thresholdToPercentage_linear min max t logScale :
  max <> min ->
  logScale = false \/ min <= 0 \/ max <= 0 \/ t <= 0 ->
  thresholdToPercentage min max t logScale = ((t - min) / (max - min)) * 100.
Proof.
  intros N H. unfold thresholdToPercentage.
  replace (Reqb max min) with false by (symmetry; now apply Reqb_false).
  destruct H as [-> | [H | [H | H]]]; [reflexivity | | |].
  - replace (Rltb 0 min) with false by (symmetry; now apply Rltb_false).
    now rewrite andb_false_r.
  - replace (Rltb 0 max) with false by (symmetry; now apply Rltb_false).
    now rewrite !andb_false_r.
  - replace (Rltb 0 t) with false by (symmetry; now apply Rltb_false).
    now rewrite !andb_false_r.
Qed.

Lemma thresholdToPercentage_log min max t :
  max <> min -> 0 < min -> 0 < max -> 0 < t ->
  thresholdToPercentage min max t true
  = ((ln t - ln min) / (ln max - ln min)) * 100.
Proof.
  intros N H1 H2 H3. unfold thresholdToPercentage.
  replace (Reqb max min) with false by (symmetry; now apply Reqb_false).
  replace (Rltb 0 min) with true by (symmetry; now apply Rltb_true).
  replace (Rltb 0 max) with true by (symmetry; now apply Rltb_true).
  replace (Rltb 0 t) with true by (symmetry; now apply Rltb_true).
  reflexivity.
Qed.

(** Which branch runs, as a case analysis for the proofs below. *)
Lemma thresholdToPercentage_cases min max t logScale :
  (max = min /\ thresholdToPercentage min max t logScale = 0) \/
  (max <> min /\ (logScale = false \/ min <= 0 \/ max <= 0 \/ t <= 0) /\
   thresholdToPercentage min max t logScale
   = ((t - min) / (max - min)) * 100) \/
  (max <> min /\ logScale = true /\ 0 < min /\ 0 < max /\ 0 < t /\
   thresholdToPercentage min max t logScale
   = ((ln t - ln min) / (ln max - ln min)) * 100).
Proof.
  destruct (Req_dec_T max min) as [-> | N].
  - left. split; [reflexivity | apply thresholdToPercentage_degenerate].
  - right. destruct logScale.
    + destruct (Rlt_dec 0 min), (Rlt_dec 0 max), (Rlt_dec 0 t);
        try (left; split; [exact N |];
             split; [| apply thresholdToPercentage_linear; auto]; lra).
      right. repeat split; auto. now apply thresholdToPercentage_log.
    + left. split; [exact N |].
      split; [| apply thresholdToPercentage_linear]; auto.
Qed.

Lemma thresholdToPercentage_in_range min max t logScale :
  min <= t <= max ->
  0 <= thresholdToPercentage min max t logScale <= 100.
Proof.
  intros Ht.
  destruct (thresholdToPercentage_cases min max t logScale)
    as [[_ ->] | [(N & _ & ->) | (N & _ & Hmin & Hmax & Hpos & ->)]].
  - lra.
  - pose proof (unit_fraction (t - min) (max - min)). lra.
  - assert (ln min < ln max) by (apply ln_increasing; lra).
    pose proof (ln_le min t Hmin (proj1 Ht)).
    pose proof (ln_le t max Hpos (proj2 Ht)).
    pose proof (unit_fraction (ln t - ln min) (ln max - ln min)). lra.
Qed.

(** The claim C5 as stated fails: no clamp is applied, so a value past
    [max] maps past 100. *)
Lemma thresholdToPercentage_exceeds_100 :
  ~ (0 <= thresholdToPercentage 0 100 150 false <= 100).
Proof.
  rewrite thresholdToPercentage_linear by (auto; lra).
  intros [_ H]. lra.
Qed.

(** C5 (amended): [thresholdToPercentage] returns 0 when [max = min], the
    linear formula in the linear regime (flag off, or one of [min], [max]
    and the value not positive), the logarithmic formula when the flag is
    set and [min], [max] and the value are positive; the result lies in
    [[0, 100]] whenever the value lies between [min] and [max]. *)
Theorem thresholdToPercentage_spec (min max t : R) (logScale : bool) :
  (max = min -> thresholdToPercentage min max t logScale = 0) /\
  (max <> min -> logScale = false \/ min <= 0 \/ max <= 0 \/ t <= 0 ->
   thresholdToPercentage min max t logScale
   = ((t - min) / (max - min)) * 100) /\
  (max <> min -> logScale = true -> 0 < min -> 0 < max -> 0 < t ->
   thresholdToPercentage min max t logScale
   = ((ln t - ln min) / (ln max - ln min)) * 100) /\
  (min <= t <= max -> 0 <= thresholdToPercentage min max t logScale <= 100).
Proof.
  repeat split.
  - intros ->. apply thresholdToPercentage_degenerate.
  - intros N H. now apply thresholdToPercentage_linear.
  - intros N -> H1 H2 H3. now apply thresholdToPercentage_log.
  - now apply thresholdToPercentage_in_range.
  - now apply thresholdToPercentage_in_range.
Qed.

Lemma thresholdToPercentage_spec_witness :
  thresholdToPercentage 10 10 10 false = 0 /\
  thresholdToPercentage 0 100 50 false = ((50 - 0) / (100 - 0)) * 100 /\
  thresholdToPercentage 1 100 10 true
  = ((ln 10 - ln 1) / (ln 100 - ln 1)) * 100 /\
  0 <= thresholdToPercentage 0 100 50 false <= 100.
Proof.
  split; [| split; [| split]].
  - apply (thresholdToPercentage_spec 10 10 10 false). reflexivity.
  - apply (thresholdToPercentage_spec 0 100 50 false); [lra | now left].
  - apply (thresholdToPercentage_spec 1 100 10 true);
      [lra | reflexivity | lra | lra | lra].
  - apply (thresholdToPercentage_spec 0 100 50 false). lra.
Defined.

(** The scenarios of the unit tests, over the reals. *)
Example thresholdToPercentage_tests :
  thresholdToPercentage 0 100 50 false = 50 /\
  thresholdToPercentage 10 10 10 false = 0 /\
  thresholdToPercentage 1 100 1 true = 0 /\
  thresholdToPercentage 1 100 100 true = 100 /\
  thresholdToPercentage 1 100 10 true = 50.
Proof.
  assert (L100 : ln 100 = 2 * ln 10).
  { replace 100 with (10 * 10) by lra. rewrite ln_mult; lra. }
  assert (L10 : 0 < ln 10).
  { rewrite <- ln_1. apply ln_increasing; lra. }
  repeat split.
  - rewrite thresholdToPercentage_linear by (auto; lra). field.
  - apply thresholdToPercentage_degenerate.
  - rewrite thresholdToPercentage_log by lra. rewrite ln_1, L100. field. lra.
  - rewrite thresholdToPercentage_log by lra. rewrite ln_1, L100. field. lra.
  - rewrite thresholdToPercentage_log by lra. rewrite ln_1, L100. field. lra.
Qed.

(** C10: with the flag set and [min] and [max] positive, a non-positive
    threshold still takes the linear formula; the logarithmic branch needs
    [min], [max] and the threshold all positive. *)
Theorem log_branch_needs_positive_threshold (min max t : R) :
  (0 < min -> 0 < max -> t <= 0 ->
   thresholdToPercentage min max t true
   = thresholdToPercentage min max t false /\
   (max <> min ->
    thresholdToPercentage min max t true = ((t - min) / (max - min)) * 100)) /\
  (max <> min ->
   thresholdToPercentage min max t true <> ((t - min) / (max - min)) * 100 ->
   0 < min /\ 0 < max /\ 0 < t).
Proof.
  split.
  - intros H1 H2 H3. split.
    + destruct (Req_dec_T max min) as [-> | N].
      * now rewrite !thresholdToPercentage_degenerate.
      * rewrite !thresholdToPercentage_linear; auto.
    + intros N. apply thresholdToPercentage_linear; auto.
  - intros N D.
    destruct (thresholdToPercentage_cases min max t true)
      as [[E _] | [(_ & _ & E) | (_ & _ & H1 & H2 & H3 & _)]];
      [contradiction | contradiction | auto].
Qed.

Lemma log_branch_needs_positive_threshold_witness :
  thresholdToPercentage 1 2 (-1) true = thresholdToPercentage 1 2 (-1) false /\
  thresholdToPercentage 1 2 (-1) true = ((-1 - 1) / (2 - 1)) * 100.
Proof.
  destruct (log_branch_needs_positive_threshold 1 2 (-1)) as [H _].
  destruct H as [E1 E2]; [lra | lra | lra |].
  split; [exact E1 | apply E2; lra].
Defined.

(** The two regimes of the drag handler's interpolation on a finite
    fraction. *)
Lemma newThreshold_linear min max logScale p :
  logScale = false \/ min <= 0 ->
  newThreshold min max logScale (Fin p) = Fin (min + p * (max - min)).
Proof.
  intros H. unfold newThreshold.
  replace (logScale && Rltb 0 min) with false.
  - cbn. f_equal.
  - symmetry. destruct H as [-> | H]; [reflexivity |].
    replace (Rltb 0 min) with false by (symmetry; now apply Rltb_false).
    apply andb_false_r.
Qed.

Lemma newThreshold_log min max p :
  0 < min -> 0 < max ->
  newThreshold min max true (Fin p)
  = Fin (exp (ln min + p * (ln max - ln min))).
Proof.
  intros H1 H2. unfold newThreshold, Math_log.
  replace (Rltb 0 min) with true by (symmetry; now apply Rltb_true).
  replace (Rltb 0 max) with true by (symmetry; now apply Rltb_true).
  cbn. f_equal.
Qed.

(** With the flag set and [min] positive the handler interpolates in log
    space whatever the value was, while [thresholdToPercentage] has fallen
    back to the linear formula for a non-positive value: there the round
    trip does not return the value. *)
Lemma round_trip_of_nonpositive_value_in_log_mode :
  newThreshold 1 2 true (Fin (thresholdToPercentage 1 2 0 true / 100))
  = Fin (/ 2).
Proof.
  rewrite thresholdToPercentage_linear by (try lra; auto using Rle_refl).
  rewrite newThreshold_log by lra. f_equal.
  replace (ln 1 + (0 - 1) / (2 - 1) * 100 / 100 * (ln 2 - ln 1))
    with (- ln 2) by (rewrite ln_1; field).
  rewrite exp_Ropp, exp_ln by lra. reflexivity.
Qed.

(** C4: for [min < max], mapping a value to its percentage and back
    through the handler's interpolation returns the value: in the linear
    regime for every value, in the logarithmic regime (flag set, [min]
    positive, hence [max] positive) for positive values, and for no
    other; and mapping a fraction to a value and back returns the
    fraction. *)
Theorem scale_maps_are_inverse (min max : R) (logScale : bool) :
  min < max ->
  (forall x : R,
      (logScale = true -> 0 < min -> 0 < x) <->
      newThreshold min max logScale
        (Fin (thresholdToPercentage min max x logScale / 100)) = Fin x) /\
  (forall p : R,
      exists v : R,
        newThreshold min max logScale (Fin p) = Fin v /\
        thresholdToPercentage min max v logScale / 100 = p).
Proof.
  intros Hlt.
  assert (Hregime : (logScale = false \/ min <= 0) \/
                    (logScale = true /\ 0 < min)).
  { destruct logScale; [| auto]. destruct (Rlt_dec 0 min); [right | left]; auto.
    right. lra. }
  split.
  - intros x. split.
    + intros Hx. destruct Hregime as [Hlin | [-> Hmin]].
      * rewrite newThreshold_linear by exact Hlin.
        rewrite thresholdToPercentage_linear by (try lra; tauto).
        f_equal. field. lra.
      * specialize (Hx eq_refl Hmin).
        rewrite newThreshold_log by lra.
        rewrite thresholdToPercentage_log by lra.
        assert (ln min < ln max) by (apply ln_increasing; lra).
        replace (ln min + (ln x - ln min) / (ln max - ln min) * 100 / 100
                          * (ln max - ln min))
          with (ln x) by (field; lra).
        now rewrite exp_ln.
    + intros E Hflag Hmin. subst logScale.
      rewrite newThreshold_log in E by lra.
      injection E as <-. apply exp_pos.
  - intros p. destruct Hregime as [Hlin | [-> Hmin]].
    + exists (min + p * (max - min)). split.
      * now apply newThreshold_linear.
      * rewrite thresholdToPercentage_linear by (try lra; tauto).
        field. lra.
    + exists (exp (ln min + p * (ln max - ln min))). split.
      * apply newThreshold_log; lra.
      * rewrite thresholdToPercentage_log
          by (try lra; try apply exp_pos).
        rewrite ln_exp.
        assert (ln min < ln max) by (apply ln_increasing; lra).
        field. lra.
Qed.

Lemma scale_maps_are_inverse_witness :
  newThreshold 0 100 false (Fin (thresholdToPercentage 0 100 60 false / 100))
  = Fin 60 /\
  newThreshold 1 100 true (Fin (thresholdToPercentage 1 100 10 true / 100))
  = Fin 10.
Proof.
  split.
  - apply (scale_maps_are_inverse 0 100 false); [lra | discriminate].
  - apply (scale_maps_are_inverse 1 100 true); [lra | intros; lra].
Defined.

(** ** The drag handler's fraction (claim C9) *)

Lemma clamp_in_unit q : 0 <= Rmax 0 (Rmin 1 q) <= 1.
Proof.
  unfold Rmax, Rmin. repeat destruct (Rle_dec _ _); lra.
Qed.

(** Pointer off the left edge, area of non-zero width: the clamped
    quotient. *)
Lemma percentage_regular clientX rectLeft rectWidth :
  rectWidth <> 0 -> clientX <> rectLeft ->
  percentage clientX rectLeft rectWidth
  = Fin (Rmax 0 (Rmin 1 ((clientX - rectLeft) / rectWidth))).
Proof.
  intros Hw Hx. unfold percentage, div.
  replace (Reqb rectWidth 0) with false by (symmetry; now apply Reqb_false).
  unfold or_else, truthy.
  replace (Reqb ((clientX - rectLeft) / rectWidth) 0) with false.
  - reflexivity.
  - symmetry. apply Reqb_false. intros E.
    apply Rmult_integral in E. destruct E as [E | E]; [lra |].
    now apply (Rinv_neq_0_compat rectWidth).
Qed.

(** Pointer exactly on the left edge: the quotient is [0] (or [NaN] when
    the width is zero too), which is falsy, so [|| 1] replaces it by 1. *)
Lemma percentage_at_left_edge rectLeft rectWidth :
  percentage rectLeft rectLeft rectWidth = Fin 1.
Proof.
  unfold percentage, div.
  replace (rectLeft - rectLeft) with 0 by lra.
  replace (Reqb 0 0) with true by (symmetry; now apply Reqb_true).
  assert (E : Rmax 0 (Rmin 1 1) = 1)
    by (unfold Rmax, Rmin; repeat destruct (Rle_dec _ _); lra).
  destruct (Reqb rectWidth 0); unfold or_else, truthy.
  - cbn. now rewrite E.
  - replace (Reqb (0 / rectWidth) 0) with true
      by (symmetry; apply Reqb_true; unfold Rdiv; apply Rmult_0_l).
    cbn. now rewrite E.
Qed.

(** Zero width: the quotient is [Infinity] or [-Infinity] by the side the
    pointer is on, and the clamp maps it to 1 or 0. *)
Lemma percentage_zero_width_right clientX rectLeft :
  rectLeft < clientX -> percentage clientX rectLeft 0 = Fin 1.
Proof.
  intros H. unfold percentage, div.
  replace (Reqb 0 0) with true by (symmetry; now apply Reqb_true).
  replace (Reqb (clientX - rectLeft) 0) with false
    by (symmetry; apply Reqb_false; lra).
  replace (Rltb 0 (clientX - rectLeft)) with true
    by (symmetry; apply Rltb_true; lra).
  cbn. f_equal. apply Rmax_right. lra.
Qed.

Lemma percentage_zero_width_left clientX rectLeft :
  clientX < rectLeft -> percentage clientX rectLeft 0 = Fin 0.
Proof.
  intros H. unfold percentage, div.
  replace (Reqb 0 0) with true by (symmetry; now apply Reqb_true).
  replace (Reqb (clientX - rectLeft) 0) with false
    by (symmetry; apply Reqb_false; lra).
  replace (Rltb 0 (clientX - rectLeft)) with false
    by (symmetry; apply Rltb_false; lra).
  reflexivity.
Qed.

(** The claim C9 as stated fails: with a zero-width area and the pointer
    to its left the fraction is 0, not 1. *)
Lemma percentage_zero_width_not_one : percentage 5 10 0 <> Fin 1.
Proof.
  rewrite percentage_zero_width_left by lra.
  intros E. injection E as E. lra.
Qed.

(** C9 (amended): the fraction of the pointer-move handler always lies in
    [[0, 1]]; it is [clamp((x - rectLeft) / rectWidth, 0, 1)] when the
    width is non-zero and the pointer is off the left edge; with a zero
    width nothing fails and the fraction is 1 with the pointer on or to
    the right of the left edge and 0 with the pointer to its left. *)
Theorem percentage_spec (clientX rectLeft rectWidth : R) :
  (exists f : R,
      percentage clientX rectLeft rectWidth = Fin f /\ 0 <= f <= 1) /\
  (rectWidth <> 0 -> clientX <> rectLeft ->
   percentage clientX rectLeft rectWidth
   = Fin (Rmax 0 (Rmin 1 ((clientX - rectLeft) / rectWidth)))) /\
  (rectWidth = 0 -> rectLeft <= clientX ->
   percentage clientX rectLeft rectWidth = Fin 1) /\
  (rectWidth = 0 -> clientX < rectLeft ->
   percentage clientX rectLeft rectWidth = Fin 0).
Proof.
  repeat split.
  - destruct (Req_dec_T clientX rectLeft) as [-> | Hx].
    + exists 1. rewrite percentage_at_left_edge. split; [reflexivity | lra].
    + destruct (Req_dec_T rectWidth 0) as [-> | Hw].
      * destruct (Rlt_dec rectLeft clientX).
        -- exists 1. rewrite percentage_zero_width_right by lra.
           split; [reflexivity | lra].
        -- exists 0. rewrite percentage_zero_width_left by lra.
           split; [reflexivity | lra].
      * eexists. split; [now apply percentage_regular | apply clamp_in_unit].
  - now apply percentage_regular.
  - intros -> [Hlt | ->];
      [now apply percentage_zero_width_right | apply percentage_at_left_edge].
  - intros ->. apply percentage_zero_width_left.
Qed.

Lemma percentage_spec_witness :
  percentage 600 100 1000 = Fin (Rmax 0 (Rmin 1 ((600 - 100) / 1000))) /\
  percentage 7 3 0 = Fin 1 /\
  percentage 5 10 0 = Fin 0.
Proof.
  split; [| split].
  - apply (percentage_spec 600 100 1000); lra.
  - apply (percentage_spec 7 3 0); lra.
  - apply (percentage_spec 5 10 0); lra.
Defined.

(** The drag scenario of the specification: a move to 60% of the plotting
    area over a [[0, 100]] linear range yields the threshold 60. *)
Example drag_to_60_percent :
  newThreshold 0 100 false (percentage 600 0 1000) = Fin 60.
Proof.
  rewrite percentage_regular by lra.
  rewrite newThreshold_linear by auto. f_equal.
  replace ((600 - 0) / 1000) with (3 / 5) by field.
  rewrite Rmin_right by lra. rewrite Rmax_right by lra. field.
Qed.

(** ** The tick generator (claim C8) *)

Lemma nth_error_map_seq {A} (g : nat -> A) (n : nat) :
  forall a k : nat,
    (k < n)%nat -> nth_error (map g (seq a n)) k = Some (g (a + k)%nat).
Proof.
  induction n as [| n IH]; intros a k Hk; [lia |].
  destruct k as [| k]; simpl.
  - now rewrite Nat.add_0_r.
  - rewrite IH by lia. f_equal. f_equal. lia.
Qed.

(** The loop pushes [f i], [f (i + 1)], ... for the iterations that
    remain. *)
Lemma ticks_loop_map (f : Z -> number) (count : Z) (fuel : nat) :
  forall (i : Z) (ticks : list number),
    Z.of_nat fuel = (count - i)%Z ->
    ticks_loop fuel i count f ticks
    = ticks ++ map (fun k => f (i + Z.of_nat k)%Z) (seq 0 fuel).
Proof.
  induction fuel as [| fuel IH]; intros i ticks Hfuel.
  - simpl. now rewrite app_nil_r.
  - cbn [ticks_loop]. destruct (Z.ltb_spec i count); [| lia].
    rewrite IH by lia. rewrite <- app_assoc. f_equal.
    cbn [seq map app]. rewrite Z.add_0_r. f_equal.
    rewrite <- seq_shift, map_map. apply map_ext.
    intros k. f_equal. lia.
Qed.

Lemma ticks_loop_all (f : Z -> number) (count : Z) :
  (0 <= count)%Z ->
  ticks_loop (Z.to_nat count) 0%Z count f []
  = map (fun k => f (Z.of_nat k)) (seq 0 (Z.to_nat count)).
Proof.
  intros H. rewrite ticks_loop_map by lia. reflexivity.
Qed.

Lemma ticks_get (f : Z -> number) (count i : Z) :
  (0 <= i < count)%Z ->
  get (map (fun k => f (Z.of_nat k)) (seq 0 (Z.to_nat count))) i = Some (f i).
Proof.
  intros H. rewrite <- (Z2Nat.id i) at 1 by lia. rewrite get_of_nat.
  rewrite nth_error_map_seq by lia. cbn [Nat.add]. now rewrite Z2Nat.id by lia.
Qed.

Lemma ticks_len (g : nat -> number) (count : Z) :
  (0 <= count)%Z ->
  len (map g (seq 0 (Z.to_nat count))) = count.
Proof.
  intros H. unfold len. rewrite length_map, length_seq. lia.
Qed.

(** [Math.round] and the automatic count *)
Lemma Math_round_le x y : x <= y -> (Math_round x <= Math_round y)%Z.
Proof. intros H. unfold Math_round. apply Zfloor_le. lra. Qed.

Lemma autoTickCount_min w : (6 <= autoTickCount w)%Z.
Proof. unfold autoTickCount. lia. Qed.

Lemma autoTickCount_mono w1 w2 :
  w1 <= w2 -> (autoTickCount w1 <= autoTickCount w2)%Z.
Proof.
  intros H. unfold autoTickCount. apply Z.max_le_compat_l.
  apply Math_round_le.
  assert (E : forall w, (if Reqb w 0 then 0 else w) = w).
  { intros w. destruct (Reqb w 0) eqn:E; [| reflexivity].
    apply Reqb_true in E. now subst. }
  rewrite !E. lra.
Qed.

Example autoTickCount_800 : autoTickCount 800 = 20%Z.
Proof.
  unfold autoTickCount. rcmp. unfold Math_round.
  rewrite (Zfloor_eq 20); [reflexivity |]. lra.
Qed.

(** What [computeTicks] returns, by regime. *)
Lemma computeTicks_none min max logScale w req :
  max = min \/ (resolved_count w req < 2)%Z ->
  computeTicks min max logScale w req = None.
Proof.
  intros H. unfold computeTicks. fold (resolved_count w req).
  destruct (Reqb max min) eqn:E; [reflexivity |].
  destruct H as [-> | H]; [apply Reqb_false in E; contradiction |].
  replace (resolved_count w req <? 2)%Z with true
    by (symmetry; apply Z.ltb_lt; exact H).
  now rewrite orb_true_r.
Qed.

Lemma frac_finite (count i : Z) :
  (2 <= count)%Z ->
  div (Fin (IZR i)) (Fin (IZR (count - 1))) = Fin (IZR i / IZR (count - 1)).
Proof.
  intros H. unfold div.
  replace (Reqb (IZR (count - 1)) 0) with false; [reflexivity |].
  symmetry. apply Reqb_false. apply not_0_IZR. lia.
Qed.

Lemma computeTicks_linear min max logScale w req :
  max <> min -> (2 <= resolved_count w req)%Z ->
  logScale = false \/ min <= 0 ->
  computeTicks min max logScale w req
  = Some (map (fun k => Fin (linear_tick min max (resolved_count w req)
                               (Z.of_nat k)))
            (seq 0 (Z.to_nat (resolved_count w req)))).
Proof.
  intros N Hc Hreg. unfold computeTicks. fold (resolved_count w req).
  set (count := resolved_count w req) in *.
  replace (Reqb max min) with false by (symmetry; now apply Reqb_false).
  replace (count =? 0)%Z with false by (symmetry; apply Z.eqb_neq; lia).
  replace (count <? 2)%Z with false by (symmetry; apply Z.ltb_ge; lia).
  replace (logScale && Rltb 0 min) with false.
  - cbn [orb]. rewrite ticks_loop_all by lia. f_equal. apply map_ext.
    intros k. rewrite frac_finite by lia. reflexivity.
  - symmetry. destruct Hreg as [-> | H]; [reflexivity |].
    replace (Rltb 0 min) with false by (symmetry; now apply Rltb_false).
    apply andb_false_r.
Qed.

Lemma computeTicks_log min max w req :
  max <> min -> (2 <= resolved_count w req)%Z ->
  0 < min -> 0 < max ->
  computeTicks min max true w req
  = Some (map (fun k => Fin (log_tick min max (resolved_count w req)
                               (Z.of_nat k)))
            (seq 0 (Z.to_nat (resolved_count w req)))).
Proof.
  intros N Hc Hmin Hmax. unfold computeTicks. fold (resolved_count w req).
  set (count := resolved_count w req) in *.
  replace (Reqb max min) with false by (symmetry; now apply Reqb_false).
  replace (count =? 0)%Z with false by (symmetry; apply Z.eqb_neq; lia).
  replace (count <? 2)%Z with false by (symmetry; apply Z.ltb_ge; lia).
  unfold Math_log.
  replace (Rltb 0 min) with true by (symmetry; now apply Rltb_true).
  replace (Rltb 0 max) with true by (symmetry; now apply Rltb_true).
  cbn [orb andb]. rewrite ticks_loop_all by lia. f_equal. apply map_ext.
  intros k. rewrite frac_finite by lia. reflexivity.
Qed.

Lemma linear_tick_ends min max count :
  (2 <= count)%Z ->
  linear_tick min max count 0 = min /\
  linear_tick min max count (count - 1) = max.
Proof.
  intros H. assert (IZR (count - 1) <> 0) by (apply not_0_IZR; lia).
  unfold linear_tick. split; field; assumption.
Qed.

Lemma log_tick_ends min max count :
  (2 <= count)%Z -> 0 < min -> 0 < max ->
  log_tick min max count 0 = min /\
  log_tick min max count (count - 1) = max.
Proof.
  intros H Hmin Hmax.
  assert (IZR (count - 1) <> 0) by (apply not_0_IZR; lia).
  unfold log_tick. split.
  - replace (ln min + IZR 0 / IZR (count - 1) * (ln max - ln min))
      with (ln min) by (field; assumption).
    now apply exp_ln.
  - replace (ln min + IZR (count - 1) / IZR (count - 1) * (ln max - ln min))
      with (ln max) by (field; assumption).
    now apply exp_ln.
Qed.

(** Whatever the regime, a non-degenerate range and a count of at least
    two give [count] ticks. *)
Lemma computeTicks_shape min max logScale w req :
  max <> min -> (2 <= resolved_count w req)%Z ->
  exists f : Z -> number,
    computeTicks min max logScale w req
    = Some (map (fun k => f (Z.of_nat k))
              (seq 0 (Z.to_nat (resolved_count w req)))).
Proof.
  intros N Hc. unfold computeTicks. fold (resolved_count w req).
  set (count := resolved_count w req) in *.
  replace (Reqb max min) with false by (symmetry; now apply Reqb_false).
  replace (count =? 0)%Z with false by (symmetry; apply Z.eqb_neq; lia).
  replace (count <? 2)%Z with false by (symmetry; apply Z.ltb_ge; lia).
  cbn [orb]. destruct (logScale && Rltb 0 min);
    match goal with
    | |- exists f, Some (ticks_loop _ _ _ ?g _) = _ => exists g
    end;
    now rewrite ticks_loop_all by lia.
Qed.

Lemma computeTicks_none_iff min max logScale w req :
  computeTicks min max logScale w req = None
  <-> max = min \/ (resolved_count w req < 2)%Z.
Proof.
  split; [| apply computeTicks_none].
  intros E. destruct (Req_dec_T max min) as [| N]; [now left |].
  destruct (Z.lt_ge_cases (resolved_count w req) 2) as [| Hc]; [now right |].
  destruct (computeTicks_shape min max logScale w req N Hc) as [f Ef].
  congruence.
Qed.

(** C8: [computeTicks] returns nothing exactly when [max = min] or the
    resolved count (the requested one, else [max(6, round(width / 40))])
    is below 2; otherwise it returns that many ticks, the first equal to
    [min] and the last to [max] (with [max] positive where the logarithmic
    regime takes its logarithm, as it is whenever [min <= max]); so five
    requested ticks give five values from [min] to [max], and the
    automatic count is at least 6 and non-decreasing in the width. *)
Theorem computeTicks_spec (min max : R) (logScale : bool) (w : R)
  (req : option Z) :
  (computeTicks min max logScale w req = None
   <-> max = min \/ (resolved_count w req < 2)%Z) /\
  (forall ticks : list number,
      computeTicks min max logScale w req = Some ticks ->
      len ticks = resolved_count w req /\
      ((logScale = true -> 0 < min -> 0 < max) ->
       get ticks 0 = Some (Fin min) /\
       get ticks (resolved_count w req - 1) = Some (Fin max))) /\
  (max <> min ->
   exists ticks : list number,
     computeTicks min max false w (Some 5%Z) = Some ticks /\
     len ticks = 5%Z /\
     get ticks 0 = Some (Fin min) /\ get ticks 4 = Some (Fin max)) /\
  (resolved_count w req = match req with
                          | Some c => c
                          | None => Z.max 6 (Math_round (w / 40))
                          end) /\
  (6 <= resolved_count w None)%Z /\
  (forall w' : R,
      w <= w' -> (resolved_count w None <= resolved_count w' None)%Z).
Proof.
  split; [apply computeTicks_none_iff |].
  split; [| split; [| split; [| split]]].
  - intros ticks E.
    assert (N : max <> min).
    { intros ->. rewrite computeTicks_none in E by now left. discriminate. }
    assert (Hc : (2 <= resolved_count w req)%Z).
    { destruct (Z.lt_ge_cases (resolved_count w req) 2); [| assumption].
      rewrite computeTicks_none in E by now right. discriminate. }
    split.
    + destruct (computeTicks_shape min max logScale w req N Hc) as [f Ef].
      rewrite Ef in E. injection E as <-. apply ticks_len. lia.
    + intros Hpos.
      assert (Hreg : (logScale = false \/ min <= 0) \/
                     (logScale = true /\ 0 < min /\ 0 < max)).
      { destruct logScale; [| auto].
        destruct (Rlt_dec 0 min); [right; auto | left; right; lra]. }
      destruct Hreg as [Hlin | (-> & Hmin & Hmax)].
      * rewrite computeTicks_linear in E by assumption. injection E as <-.
        rewrite !(ticks_get (fun i => Fin (linear_tick min max _ i))) by lia.
        destruct (linear_tick_ends min max _ Hc) as [-> ->]. auto.
      * rewrite computeTicks_log in E by assumption. injection E as <-.
        rewrite !(ticks_get (fun i => Fin (log_tick min max _ i))) by lia.
        destruct (log_tick_ends min max _ Hc Hmin Hmax) as [-> ->]. auto.
  - intros N. eexists. split.
    + apply computeTicks_linear; [exact N | simpl; lia | now left].
    + cbn [resolved_count].
      split; [apply ticks_len; lia |].
      rewrite (ticks_get (fun i => Fin (linear_tick min max 5 i)) 5 0) by lia.
      rewrite (ticks_get (fun i => Fin (linear_tick min max 5 i)) 5 4) by lia.
      destruct (linear_tick_ends min max 5) as [E0 E4]; [lia |].
      change (5 - 1)%Z with 4%Z in E4. rewrite E0, E4. auto.
  - destruct req; [reflexivity |]. unfold resolved_count, autoTickCount.
    destruct (Reqb w 0) eqn:E; [| reflexivity].
    apply Reqb_true in E. now subst.
  - apply autoTickCount_min.
  - intros w' H. now apply autoTickCount_mono.
Qed.

Lemma computeTicks_spec_witness :
  exists ticks : list number,
    computeTicks 1 100 true 200 (Some 5%Z) = Some ticks /\
    len ticks = 5%Z /\
    get ticks 0 = Some (Fin 1) /\ get ticks 4 = Some (Fin 100).
Proof.
  destruct (computeTicks_shape 1 100 true 200 (Some 5%Z)) as [f Ef];
    [lra | simpl; lia |].
  eexists. split; [exact Ef |].
  destruct (computeTicks_spec 1 100 true 200 (Some 5%Z))
    as (_ & H & _).
  destruct (H _ Ef) as [Hlen Hends].
  split; [exact Hlen |]. apply Hends. intros; lra.
Defined.

(** The unit tests: 800 pixels give 20 ticks, more than 10; five requested
    ticks over [[0, 100]] start at 0 and end at 100. *)
Example computeTicks_tests :
  (exists ticks, computeTicks 0 100 false 800 None = Some ticks /\
                 len ticks = 20%Z) /\
  (exists ticks, computeTicks 0 100 false 200 (Some 5%Z) = Some ticks /\
                 len ticks = 5%Z /\ get ticks 0 = Some (Fin 0) /\
                 get ticks 4 = Some (Fin 100)).
Proof.
  split.
  - eexists. split.
    + apply computeTicks_linear;
        [lra | cbn [resolved_count]; rewrite autoTickCount_800; lia | now left].
    + cbn [resolved_count]. rewrite autoTickCount_800. apply ticks_len. lia.
  - eexists. split.
    + apply computeTicks_linear; [lra | simpl; lia | now left].
    + cbn [resolved_count]. split; [apply ticks_len; lia |].
      rewrite (ticks_get (fun i => Fin (linear_tick 0 100 5 i)) 5 0) by lia.
      rewrite (ticks_get (fun i => Fin (linear_tick 0 100 5 i)) 5 4) by lia.
      destruct (linear_tick_ends 0 100 5) as [E0 E4]; [lia |].
      change (5 - 1)%Z with 4%Z in E4. rewrite E0, E4. auto.
Qed.

(** Outside the domain of the real logarithm: with the flag set, [min]
    positive and [max] negative, [Math.log(max)] is [NaN] and so is every
    tick. *)
Example computeTicks_log_of_negative_max :
  computeTicks 5 (-1) true 0 (Some 2%Z) = Some [NaN; NaN].
Proof.
  unfold computeTicks. rcmp.
  change (2 =? 0)%Z with false. change (2 <? 2)%Z with false.
  cbn [orb andb]. rewrite ticks_loop_all by lia.
  change (Z.to_nat 2) with 2%nat. change (2 - 1)%Z with 1%Z.
  unfold Math_log, div. rcmp. reflexivity.
Qed.

(** ** The distribution builder (claims C6, C7) *)

Section Sorting.

Lemma insert_perm a l : Permutation (a :: l) (insert a l).
Proof.
  induction l as [| b l IH]; simpl; [reflexivity |].
  destruct (Rleb (compareFn a b) 0); [reflexivity |].
  rewrite perm_swap. now constructor.
Qed.

Lemma insert_sorted a l : Sorted Rle l -> Sorted Rle (insert a l).
Proof.
  induction l as [| b l IH]; intros Hs; simpl.
  - repeat constructor.
  - unfold compareFn. destruct (Rleb (a - b) 0) eqn:E.
    + apply Rleb_true in E. constructor; [exact Hs |]. constructor. lra.
    + apply Rleb_false in E. inversion Hs as [| ? ? Hs' Hd]; subst.
      constructor; [now apply IH |].
      destruct l as [| c l]; simpl.
      * constructor. lra.
      * destruct (Rleb (compareFn a c) 0); constructor.
        -- lra.
        -- now inversion Hd.
Qed.

Lemma sort_perm values : Permutation values (sort values).
Proof.
  induction values as [| a l IH]; simpl; [reflexivity |].
  rewrite <- insert_perm. now constructor.
Qed.

Lemma sort_sorted values : Sorted Rle (sort values).
Proof.
  induction values as [| a l IH]; simpl; [constructor |].
  now apply insert_sorted.
Qed.

Lemma sort_len values : len (sort values) = len values.
Proof.
  unfold len. now rewrite <- (Permutation_length (sort_perm values)).
Qed.

End Sorting.

(** The sort of the test array's elements given out of order. *)
Example sort_test : sort [5; 2; 9; 1; 2] = test_arr.
Proof.
  unfold sort, test_arr. cbn [fold_right insert].
  repeat (unfold compareFn; rcmp; cbn [insert]). reflexivity.
Qed.

(** *** Exact points *)

(** The points [forEach] pushes for the elements [rest], the first of which
    has index [index]. *)
Lemma forEach_push_app rest :
  forall index data,
    forEach_push rest index data = data ++ forEach_push rest index [].
Proof.
  induction rest as [| v rest IH]; intros index data; simpl.
  - now rewrite app_nil_r.
  - rewrite IH. rewrite (IH _ [_]). now rewrite <- app_assoc.
Qed.

Lemma forEach_push_cons v rest index :
  forEach_push (v :: rest) index []
  = mkPoint v (index + 1) :: forEach_push rest (index + 1) [].
Proof. simpl. now rewrite forEach_push_app. Qed.

Lemma forEach_push_nth rest :
  forall index (k : nat),
    nth_error (forEach_push rest index []) k
    = option_map (fun v => mkPoint v (index + Z.of_nat k + 1))
        (nth_error rest k).
Proof.
  induction rest as [| v rest IH]; intros index k.
  - destruct k; reflexivity.
  - rewrite forEach_push_cons. destruct k as [| k]; simpl nth_error.
    + simpl. now rewrite Z.add_0_r.
    + rewrite IH. destruct (nth_error rest k); simpl; [| reflexivity].
      do 2 f_equal. lia.
Qed.

Lemma forEach_push_length rest :
  forall index, length (forEach_push rest index []) = length rest.
Proof.
  induction rest as [| v rest IH]; intros index; [reflexivity |].
  rewrite forEach_push_cons. simpl. now rewrite IH.
Qed.

Lemma forEach_push_counts rest :
  forall index,
    Sorted Z.le (map count (forEach_push rest index [])) /\
    HdRel Z.le index (map count (forEach_push rest index [])).
Proof.
  induction rest as [| v rest IH]; intros index.
  - simpl. split; constructor.
  - rewrite forEach_push_cons. cbn [map count].
    destruct (IH (index + 1)%Z) as [Hs Hd]. split.
    + constructor; [exact Hs |].
      destruct (map count (forEach_push rest (index + 1) [])); constructor.
      inversion Hd; subst. lia.
    + constructor. lia.
Qed.

(** *** The running index *)

Lemma filter_none (p : R -> bool) (s : list R) :
  (forall v, In v s -> p v = false) -> filter p s = [].
Proof.
  induction s as [| a s IH]; intros H; simpl; [reflexivity |].
  rewrite (H a) by now left. apply IH. intros v Hv. apply H. now right.
Qed.

(** In an ascending array a downward-closed predicate holds exactly on the
    indices below the number of elements that satisfy it. *)
Lemma sorted_partition (p : R -> bool) (s : list R) :
  Sorted Rle s ->
  (forall a b, a <= b -> p b = true -> p a = true) ->
  forall (j : nat) v,
    nth_error s j = Some v -> (p v = true <-> (j < length (filter p s))%nat).
Proof.
  intros Hs Hp. apply Sorted_StronglySorted in Hs;
    [| intros x y z; apply Rle_trans].
  induction Hs as [| a s Hs IH Hall]; intros j v Ev.
  - destruct j; discriminate.
  - rewrite Forall_forall in Hall. cbn [filter].
    destruct (p a) eqn:Ea.
    + destruct j as [| j]; simpl in *.
      * injection Ev as <-. split; [lia | auto].
      * rewrite (IH j v Ev). lia.
    + assert (Hnone : forall w, In w s -> p w = false).
      { intros w Hw. destruct (p w) eqn:Ew; [| reflexivity].
        rewrite (Hp a w (Hall w Hw) Ew) in Ea. discriminate. }
      rewrite (filter_none p s Hnone).
      destruct j as [| j]; simpl in *.
      * injection Ev as <-. rewrite Ea. split; [discriminate | lia].
      * rewrite (Hnone v) by (eapply nth_error_In; eauto).
        split; [discriminate | lia].
Qed.

Lemma count_if_mono (p q : R -> bool) (s : list R) :
  (forall v, p v = true -> q v = true) -> (count_if p s <= count_if q s)%Z.
Proof.
  intros H. unfold count_if. apply inj_le.
  induction s as [| a s IH]; simpl; [lia |].
  destruct (p a) eqn:Ea.
  - rewrite (H a Ea). simpl. lia.
  - destruct (q a); simpl; lia.
Qed.

Lemma count_le_mono s b b' : b <= b' -> (count_le s b <= count_le s b')%Z.
Proof.
  intros H. apply count_if_mono. intros v Hv.
  apply Rleb_true in Hv. apply Rleb_true. lra.
Qed.

Section RunningIndex.

Local Open Scope Z_scope.

Variable sorted : list R.
Variable binValue : R.

Lemma advance_ge fuel :
  forall currentIndex,
    currentIndex <= advance fuel sorted binValue currentIndex.
Proof.
  induction fuel as [| fuel IH]; intros ci; simpl; [lia |].
  destruct (_ && _); [| lia]. specialize (IH (ci + 1)). lia.
Qed.

(** With [sorted.length] steps the inner loop always reaches its exit
    test. *)
Lemma advance_exits fuel :
  forall currentIndex,
    len sorted - currentIndex <= Z.of_nat fuel ->
    let r := advance fuel sorted binValue currentIndex in
    ((r <? len sorted) && elem_le sorted r binValue)%bool = false.
Proof.
  induction fuel as [| fuel IH]; intros ci Hfuel; cbn [advance].
  - cbv zeta. destruct (Z.ltb_spec ci (len sorted)); [lia | reflexivity].
  - destruct ((ci <? len sorted) && elem_le sorted ci binValue)%bool eqn:E.
    + apply IH. lia.
    + exact E.
Qed.

Hypothesis Hsorted : Sorted Rle sorted.

Lemma elem_le_below_count currentIndex :
  0 <= currentIndex < len sorted ->
  (elem_le sorted currentIndex binValue = true
   <-> currentIndex < count_le sorted binValue).
Proof.
  intros Hci. unfold elem_le.
  destruct (get_in_range sorted currentIndex Hci) as [v Ev]. rewrite Ev.
  rewrite <- (Z2Nat.id currentIndex) in Ev by lia. rewrite get_of_nat in Ev.
  rewrite (sorted_partition (fun w => Rleb w binValue) sorted Hsorted) by
    (first [ exact Ev
           | intros a b Hab Hb; apply Rleb_true in Hb; apply Rleb_true;
             apply (Rle_trans _ b); [exact Hab | exact Hb] ]).
  unfold count_le, count_if. lia.
Qed.

(** From any index at or below the number of elements [<= binValue] the
    inner loop stops at exactly that number. *)
Lemma advance_count fuel :
  forall currentIndex,
    0 <= currentIndex <= count_le sorted binValue ->
    count_le sorted binValue - currentIndex <= Z.of_nat fuel ->
    advance fuel sorted binValue currentIndex = count_le sorted binValue.
Proof.
  pose proof (count_if_range (fun w => Rleb w binValue) sorted) as Hrange.
  fold (count_le sorted binValue) in Hrange.
  induction fuel as [| fuel IH]; intros ci Hci Hfuel; cbn [advance]; [lia |].
  destruct (Z.ltb_spec ci (len sorted)) as [Hlt | Hge]; cbn [andb].
  - destruct (elem_le sorted ci binValue) eqn:E.
    + apply elem_le_below_count in E; [| lia]. apply IH; lia.
    + destruct (Z.lt_ge_cases ci (count_le sorted binValue)) as [Hc | Hc];
        [| lia].
      apply elem_le_below_count in Hc; [| lia]. congruence.
  - lia.
Qed.

End RunningIndex.

(** *** Bins *)

Section Bins.

Variable sorted : list R.
Variables min binSize : R.
Variable binCount : Z.

Lemma bins_loop_app fuel :
  forall i currentIndex data,
    bins_loop fuel i sorted min binSize binCount currentIndex data
    = data ++ bins_loop fuel i sorted min binSize binCount currentIndex [].
Proof.
  induction fuel as [| fuel IH]; intros i ci data; cbn [bins_loop].
  - now rewrite app_nil_r.
  - destruct (i <=? binCount)%Z; [| now rewrite app_nil_r].
    cbn [app]. rewrite IH. rewrite (IH _ _ [_]). now rewrite <- app_assoc.
Qed.

Lemma bins_loop_step fuel i currentIndex :
  (i <= binCount)%Z ->
  bins_loop (S fuel) i sorted min binSize binCount currentIndex []
  = let binValue := min + IZR i * binSize in
    let currentIndex' :=
      advance (length sorted) sorted binValue currentIndex in
    mkPoint binValue currentIndex'
      :: bins_loop fuel (i + 1) sorted min binSize binCount currentIndex' [].
Proof.
  intros H. cbn [bins_loop]. destruct (Z.leb_spec i binCount); [| lia].
  cbv zeta. now rewrite bins_loop_app.
Qed.

(** The running index only moves forward, so the counts do not decrease;
    this needs nothing about the array or the boundaries. *)
Lemma bins_loop_counts fuel :
  forall i currentIndex,
    Sorted Z.le
      (map count
         (bins_loop fuel i sorted min binSize binCount currentIndex [])) /\
    HdRel Z.le currentIndex
      (map count
         (bins_loop fuel i sorted min binSize binCount currentIndex [])).
Proof.
  induction fuel as [| fuel IH]; intros i ci.
  - simpl. split; constructor.
  - destruct (Z.leb_spec i binCount) as [Hi | Hi].
    + rewrite bins_loop_step by exact Hi. cbv zeta. cbn [map count].
      set (ci' := advance _ _ _ ci).
      assert (ci <= ci')%Z by apply advance_ge.
      destruct (IH (i + 1)%Z ci') as [Hs Hd].
      split; constructor; auto.
    + cbn [bins_loop]. destruct (Z.leb_spec i binCount); [lia |].
      simpl. split; constructor.
Qed.

Hypothesis Hsorted : Sorted Rle sorted.
Hypothesis HbinSize : 0 <= binSize.

(** On an ascending array with ascending boundaries the running index at
    each boundary is the number of elements at or below it. *)
Lemma bins_loop_spec fuel :
  forall i currentIndex,
    Z.of_nat fuel = (binCount + 1 - i)%Z ->
    (0 <= currentIndex <= count_le sorted (min + IZR i * binSize))%Z ->
    bins_loop fuel i sorted min binSize binCount currentIndex []
    = map (fun k : nat =>
             let binValue := min + IZR (i + Z.of_nat k) * binSize in
             mkPoint binValue (count_le sorted binValue))
        (seq 0 fuel).
Proof.
  induction fuel as [| fuel IH]; intros i ci Hfuel Hci; [reflexivity |].
  rewrite bins_loop_step by lia. cbv zeta.
  pose proof (count_if_range (fun w => Rleb w (min + IZR i * binSize)) sorted)
    as Hrange.
  fold (count_le sorted (min + IZR i * binSize)) in Hrange.
  rewrite advance_count; [| exact Hsorted | exact Hci | unfold len in *; lia].
  cbn [seq map]. rewrite Z.add_0_r. f_equal.
  rewrite IH.
  - rewrite <- seq_shift, map_map. apply map_ext.
    intros k. replace (i + 1 + Z.of_nat k)%Z with (i + Z.of_nat (S k))%Z by lia.
    reflexivity.
  - lia.
  - split; [lia |]. apply count_le_mono. rewrite plus_IZR. nra.
Qed.

End Bins.

(** *** The three regimes of the builder *)

Lemma buildDistribution_empty :
  buildDistribution [] = mkDistribution [] 0 0 [].
Proof. reflexivity. Qed.

Lemma buildDistribution_cases values :
  values <> [] ->
  let s := sort values in
  let mn := at_ s 0 in
  let mx := at_ s (len s - 1) in
  mn <= mx /\
  ((mn = mx /\
    buildDistribution values
    = mkDistribution [mkPoint mn 0; mkPoint mn (len s)] mn mn s) \/
   (mn < mx /\ (len s <= 50)%Z /\
    buildDistribution values
    = mkDistribution (forEach_push s 0%Z []) mn mx s) \/
   (mn < mx /\ (50 < len s)%Z /\
    buildDistribution values
    = mkDistribution
        (bins_loop (Z.to_nat (Z.min 100 (len s) + 1)) 0%Z s mn
           ((mx - mn) / IZR (Z.min 100 (len s))) (Z.min 100 (len s)) 0%Z [])
        mn mx s)).
Proof.
  intros Hne. cbv zeta.
  assert (Hlen : (0 < len values)%Z)
    by (destruct values; [contradiction | unfold len; simpl; lia]).
  pose proof (sort_len values) as Hsl.
  set (s := sort values) in *.
  assert (Hle : at_ s 0 <= at_ s (len s - 1)).
  { unfold at_.
    destruct (get_in_range s 0%Z) as [a Ea]; [lia |].
    destruct (get_in_range s (len s - 1)%Z) as [b Eb]; [lia |].
    rewrite Ea, Eb.
    apply (sorted_get_le s 0 (len s - 1) a b (sort_sorted values));
      [lia | exact Ea | exact Eb]. }
  split; [exact Hle |].
  unfold buildDistribution. fold s.
  replace (len values =? 0)%Z with false by (symmetry; apply Z.eqb_neq; lia).
  destruct (Reqb (at_ s 0) (at_ s (len s - 1))) eqn:E.
  - apply Reqb_true in E. left. split; [exact E | reflexivity].
  - apply Reqb_false in E. right.
    destruct (Z.leb_spec (len s) 50) as [H50 | H50]; [left | right];
      (split; [lra |]); (split; [exact H50 | reflexivity]).
Qed.

(** [minValue] and [maxValue] bound every input value. *)
Lemma buildDistribution_bounds values v :
  In v values ->
  minValue (buildDistribution values) <= v
  <= maxValue (buildDistribution values).
Proof.
  intros Hv.
  assert (Hne : values <> []) by (intros ->; contradiction).
  pose proof (sort_sorted values) as Hs.
  pose proof (sort_len values) as Hsl.
  assert (Hin : In v (sort values))
    by (eapply Permutation_in; [apply sort_perm | exact Hv]).
  destruct (In_nth_error _ _ Hin) as [k Ek].
  assert (Hk : (k < length (sort values))%nat)
    by (apply nth_error_Some; congruence).
  rewrite <- get_of_nat in Ek.
  assert (Hlen : (0 < len (sort values))%Z) by (unfold len; lia).
  destruct (get_in_range (sort values) 0%Z) as [a Ea]; [lia |].
  destruct (get_in_range (sort values) (len (sort values) - 1)%Z) as [b Eb];
    [lia |].
  assert (Ha : a <= v)
    by (apply (sorted_get_le _ 0 (Z.of_nat k) a v Hs); auto; lia).
  assert (Hb : v <= b).
  { apply (sorted_get_le _ (Z.of_nat k) (len (sort values) - 1) v b Hs); auto.
    unfold len. lia. }
  destruct (buildDistribution_cases values Hne)
    as (_ & [[E ->] | [(_ & _ & ->) | (_ & _ & ->)]]);
    cbn [minValue maxValue]; unfold at_ in *; rewrite ?Ea, ?Eb in *; lra.
Qed.

(** C7: in every regime the cumulative counts of the series do not
    decrease; [sortedValues] is the ascending permutation of the input; and
    for at most 50 values with [min < max] the points are exactly
    [(sorted[i], i + 1)], so the last count is the number of values. *)
Theorem distribution_counts_nondecreasing (values : list R) :
  counts_nondecreasing (chartData (buildDistribution values)) /\
  (Sorted Rle (sortedValues (buildDistribution values)) /\
   Permutation values (sortedValues (buildDistribution values))) /\
  ((len values <= 50)%Z ->
   minValue (buildDistribution values) < maxValue (buildDistribution values) ->
   len (chartData (buildDistribution values)) = len values /\
   (forall i : Z,
       (0 <= i < len values)%Z ->
       get (chartData (buildDistribution values)) i
       = Some (mkPoint (at_ (sortedValues (buildDistribution values)) i)
                 (i + 1))) /\
   (exists p : DistributionPoint,
       get (chartData (buildDistribution values)) (len values - 1) = Some p /\
       count p = len values)).
Proof.
  destruct values as [| v0 values'] eqn:Ev.
  { rewrite buildDistribution_empty.
    cbn [chartData sortedValues minValue maxValue].
    split; [constructor | split; [split; constructor |]].
    intros _ Hlt. lra. }
  rewrite <- Ev. assert (Hne : values <> []) by (subst; discriminate).
  clear Ev v0 values'.
  pose proof (sort_sorted values) as Hs.
  pose proof (sort_perm values) as Hp.
  pose proof (sort_len values) as Hsl.
  assert (Hlen : (0 < len values)%Z)
    by (destruct values; [contradiction | unfold len; simpl; lia]).
  destruct (buildDistribution_cases values Hne)
    as (Hle & [[E ->] | [(Hlt & H50 & ->) | (Hlt & H50 & ->)]]);
    cbn [chartData sortedValues minValue maxValue].
  - split; [| split; [auto |]].
    + unfold counts_nondecreasing. cbn [map count].
      repeat constructor. lia.
    + intros _ H. lra.
  - split; [| split; [auto |]].
    + apply forEach_push_counts.
    + intros _ _.
      assert (Hget : forall i : Z,
                 (0 <= i < len values)%Z ->
                 get (forEach_push (sort values) 0%Z []) i
                 = Some (mkPoint (at_ (sort values) i) (i + 1))).
      { intros i Hi. unfold at_.
        destruct (get_in_range (sort values) i) as [v Evi]; [lia |].
        rewrite Evi. assert (Ei : i = Z.of_nat (Z.to_nat i)) by lia.
        revert Evi. rewrite Ei. generalize (Z.to_nat i). intros k Evi.
        rewrite get_of_nat in Evi. rewrite get_of_nat.
        rewrite forEach_push_nth, Evi. reflexivity. }
      split; [| split].
      * unfold len. rewrite forEach_push_length. exact Hsl.
      * exact Hget.
      * eexists. split; [apply Hget; lia |]. cbn [count]. lia.
  - split; [| split; [auto |]].
    + apply bins_loop_counts.
    + intros Hn _. lia.
Qed.

Lemma buildDistribution_test :
  buildDistribution [5; 2; 9; 1; 2]
  = mkDistribution
      [mkPoint 1 1; mkPoint 2 2; mkPoint 2 3; mkPoint 5 4; mkPoint 9 5]
      1 9 test_arr.
Proof.
  unfold buildDistribution. rewrite sort_test.
  cbn -[Reqb]. change (at_ test_arr 4) with 9. rcmp. reflexivity.
Qed.

Lemma distribution_counts_nondecreasing_witness :
  counts_nondecreasing (chartData (buildDistribution [5; 2; 9; 1; 2])) /\
  exists p : DistributionPoint,
    get (chartData (buildDistribution [5; 2; 9; 1; 2])) 4 = Some p /\
    count p = 5%Z.
Proof.
  destruct (distribution_counts_nondecreasing [5; 2; 9; 1; 2])
    as (Hmono & _ & Hexact).
  split; [exact Hmono |].
  apply Hexact.
  - vm_compute. discriminate.
  - rewrite buildDistribution_test. cbn [minValue maxValue]. lra.
Defined.

(** C6: for more than 50 values with [min < max] the builder produces
    [min(100, n) + 1] points at the evenly spaced boundaries
    [min + i * (max - min) / min(100, n)], and the count the running index
    gives at a boundary is the number of sorted elements at or below it,
    which is what [upperBound] returns there. *)
Theorem binned_distribution (values : list R) :
  (50 < len values)%Z ->
  minValue (buildDistribution values) < maxValue (buildDistribution values) ->
  len (chartData (buildDistribution values)) = (Z.min 100 (len values) + 1)%Z /\
  (forall i : Z,
      (0 <= i <= Z.min 100 (len values))%Z ->
      exists p : DistributionPoint,
        get (chartData (buildDistribution values)) i = Some p /\
        value p = bin_boundary (minValue (buildDistribution values))
                    (maxValue (buildDistribution values))
                    (Z.min 100 (len values)) i /\
        count p
        = count_le (sortedValues (buildDistribution values)) (value p) /\
        (forall fuel : nat,
            (len values <= max_length)%Z ->
            (len values < 2 ^ Z.of_nat fuel)%Z ->
            upperBound fuel (sortedValues (buildDistribution values)) (value p)
            = Some (count p))).
Proof.
  intros Hn Hmm.
  assert (Hne : values <> [])
    by (intros ->; unfold len in Hn; simpl in Hn; lia).
  pose proof (sort_sorted values) as Hs.
  pose proof (sort_len values) as Hsl.
  destruct (buildDistribution_cases values Hne)
    as (Hle & [[E HE] | [(Hlt & H50 & HE) | (Hlt & H50 & HE)]]);
    rewrite HE in *; cbn [chartData sortedValues minValue maxValue] in *;
    [lra | lia |].
  clear HE Hmm. rewrite Hsl in *.
  assert (Hb : (51 <= Z.min 100 (len values))%Z) by lia.
  assert (Hb0 : 0 < IZR (Z.min 100 (len values))) by (apply IZR_lt; lia).
  generalize dependent (Z.min 100 (len values)). intros b Hb Hb0.
  generalize dependent (at_ (sort values) (len values - 1)). intros mx Hle Hlt.
  generalize dependent (at_ (sort values) 0). intros mn Hle Hlt.
  assert (HbinSize : 0 <= (mx - mn) / IZR b).
  { apply Rlt_le. apply Rdiv_lt_0_compat; lra. }
  rewrite (bins_loop_spec (sort values) mn _ b Hs HbinSize); [| lia |].
  2:{ split; [lia |]. apply count_if_range. }
  split.
  - unfold len. rewrite length_map, length_seq. lia.
  - intros i Hi. eexists. split; [| split; [| split]].
    + rewrite <- (Z2Nat.id i) at 1 by lia. rewrite get_of_nat.
      apply nth_error_map_seq. lia.
    + cbn [value]. unfold bin_boundary.
      replace (0 + Z.of_nat (0 + Z.to_nat i))%Z with i by lia.
      field. lra.
    + reflexivity.
    + intros fuel Hmax Hfuel. cbn [value count].
      apply upperBound_sorted; [exact Hs | lia | lia].
Qed.

Lemma binned_values_len : len binned_values = 51%Z.
Proof. unfold binned_values, len. cbn [length repeat]. reflexivity. Qed.

Lemma binned_values_range :
  minValue (buildDistribution binned_values)
  < maxValue (buildDistribution binned_values).
Proof.
  assert (H0 : In 0 binned_values) by (left; reflexivity).
  assert (H1 : In 1 binned_values) by (right; left; reflexivity).
  apply buildDistribution_bounds in H0, H1. lra.
Qed.

Lemma binned_distribution_witness :
  len (chartData (buildDistribution binned_values)) = 52%Z /\
  exists p : DistributionPoint,
    get (chartData (buildDistribution binned_values)) 51 = Some p /\
    count p
    = count_le (sortedValues (buildDistribution binned_values)) (value p).
Proof.
  destruct (binned_distribution binned_values) as [Hlen Hpts].
  - rewrite binned_values_len. reflexivity.
  - exact binned_values_range.
  - rewrite binned_values_len in *. split; [exact Hlen |].
    destruct (Hpts 51%Z) as (p & Hp & _ & Hc & _).
    + split; discriminate.
    + exists p. split; [exact Hp | exact Hc].
Defined.

(** * Further properties of the code *)

(** ** The binary searches on arbitrary arrays *)

(** Whatever the array holds, the window stays inside it and the loop
    ends inside the window. *)
Lemma bisect_while_range (p : R -> bool) (s : list R) :
  (len s <= max_length)%Z ->
  forall (fuel : nat) (l r : Z),
    (0 <= l <= r)%Z -> (r <= len s)%Z -> (r - l < 2 ^ Z.of_nat fuel)%Z ->
    exists i : Z, bisect_while fuel p s l r = Some i /\ (l <= i <= r)%Z.
Proof.
  intros Hlen. induction fuel as [| fuel IH]; intros l r Hlr Hr Hsz.
  - simpl in *. destruct (Z.ltb_spec l r); [lia |].
    exists l. split; [auto | lia].
  - cbn [bisect_while]. destruct (Z.ltb_spec l r) as [Hlt | Hge].
    + pose proof (midpoint_exact l r) as Hm.
      set (m := sar1 (l + r)) in *. clearbody m.
      rewrite Nat2Z.inj_succ, Z.pow_succ_r in Hsz by lia.
      destruct (match get s m with Some v => p v | None => false end).
      * destruct (IH (m + 1)%Z r) as (i & Ei & Hi); try lia.
        exists i. split; [exact Ei | lia].
      * destruct (IH l m) as (i & Ei & Hi); try lia.
        exists i. split; [exact Ei | lia].
    + exists l. split; [reflexivity | lia].
Qed.

(** X1: on any array of at most [2^30] numbers, sorted or not, both
    searches end (given fuel for the halvings) and return an index between
    0 and the length. *)
Theorem bounds_stay_in_range (fuel : nat) (arr : list R) (x : R) :
  (len arr <= max_length)%Z ->
  (len arr < 2 ^ Z.of_nat fuel)%Z ->
  (exists i : Z, lowerBound fuel arr x = Some i /\ (0 <= i <= len arr)%Z) /\
  (exists j : Z, upperBound fuel arr x = Some j /\ (0 <= j <= len arr)%Z).
Proof.
  intros Hlen Hfuel. pose proof (len_nonneg arr) as H0.
  unfold lowerBound, upperBound.
  rewrite lowerBound_while_bisect, upperBound_while_bisect.
  split; apply bisect_while_range; auto; lia.
Qed.

Lemma bounds_stay_in_range_witness :
  (exists i : Z, lowerBound 3 [9; 1; 5; 2; 2] 4 = Some i /\ (0 <= i <= 5)%Z) /\
  (exists j : Z, upperBound 3 [9; 1; 5; 2; 2] 4 = Some j /\ (0 <= j <= 5)%Z).
Proof.
  apply (bounds_stay_in_range 3 [9; 1; 5; 2; 2] 4).
  - vm_compute. discriminate.
  - vm_compute. reflexivity.
Defined.

(** X2: on any array of at most [2^30] numbers and for any mode string
    [getCountAtThreshold] returns a count between 0 and the length. *)
Theorem getCountAtThreshold_in_range (fuel : nat) (mode : FilterMode)
  (arr : list R) (t : R) :
  (len arr <= max_length)%Z ->
  (len arr < 2 ^ Z.of_nat fuel)%Z ->
  exists c : Z,
    getCountAtThreshold fuel mode arr t = Some c /\ (0 <= c <= len arr)%Z.
Proof.
  intros Hlen Hfuel. pose proof (len_nonneg arr) as H0.
  assert (Hl : exists i : Z,
             lowerBound fuel arr t = Some i /\ (0 <= i <= len arr)%Z).
  { unfold lowerBound. rewrite lowerBound_while_bisect.
    apply bisect_while_range; auto; lia. }
  assert (Hu : exists i : Z,
             upperBound fuel arr t = Some i /\ (0 <= i <= len arr)%Z).
  { unfold upperBound. rewrite upperBound_while_bisect.
    apply bisect_while_range; auto; lia. }
  destruct Hl as (i & Ei & Hi), Hu as (j & Ej & Hj).
  unfold getCountAtThreshold. rewrite Ei, Ej.
  destruct (len arr =? 0)%Z; [exists 0%Z; split; [reflexivity | lia] |].
  repeat match goal with
         | |- context [String.eqb ?a ?b] => destruct (String.eqb a b)
         end;
    eexists; (split; [reflexivity | lia]).
Qed.

Lemma getCountAtThreshold_in_range_witness :
  exists c : Z,
    getCountAtThreshold 3 "gt" [9; 1; 5; 2; 2] 4 = Some c /\ (0 <= c <= 5)%Z.
Proof.
  apply (getCountAtThreshold_in_range 3 "gt"%string [9; 1; 5; 2; 2] 4).
  - vm_compute. discriminate.
  - vm_compute. reflexivity.
Defined.

(** ** Occurrences, insertion points and monotonicity *)

Lemma count_le_split (s : list R) (t : R) :
  (count_le s t = count_lt s t + multiplicity s t)%Z.
Proof.
  unfold count_le, count_lt, multiplicity, count_if.
  induction s as [| a s IH]; [reflexivity |]. cbn [filter].
  destruct (Rtotal_order a t) as [H | [H | H]]; rcmp; cbn [length]; lia.
Qed.

Lemma multiplicity_pos (s : list R) (t : R) :
  (0 < multiplicity s t)%Z <-> In t s.
Proof.
  unfold multiplicity, count_if. induction s as [| a s IH]; simpl.
  - split; [lia | tauto].
  - destruct (Reqb a t) eqn:E.
    + apply Reqb_true in E. split; [auto | simpl; lia].
    + apply Reqb_false in E. rewrite IH. split; [auto | tauto].
Qed.

Lemma count_if_perm (p : R -> bool) (s s' : list R) :
  Permutation s s' -> count_if p s = count_if p s'.
Proof.
  intros H. unfold count_if. f_equal.
  induction H as [| a l l' H IH | a b l | l l' l'' H1 IH1 H2 IH2]; simpl.
  - reflexivity.
  - destruct (p a); simpl; congruence.
  - destruct (p a), (p b); reflexivity.
  - congruence.
Qed.

(** X3: on an ascending array [lowerBound] is at most [upperBound], their
    difference is the number of occurrences of the threshold, and the
    threshold occurs in the array exactly when they differ. *)
Theorem bounds_enclose_occurrences (fuel : nat) (s : list R) (t : R) :
  Sorted Rle s ->
  (len s <= max_length)%Z ->
  (len s < 2 ^ Z.of_nat fuel)%Z ->
  exists i j : Z,
    lowerBound fuel s t = Some i /\ upperBound fuel s t = Some j /\
    (i <= j)%Z /\ (j - i = multiplicity s t)%Z /\ (In t s <-> (i < j)%Z).
Proof.
  intros Hs Hl Hf.
  destruct (lowerBound_sorted s t fuel Hs Hl Hf) as [El _].
  destruct (upperBound_sorted s t fuel Hs Hl Hf) as [Eu _].
  exists (count_lt s t), (count_le s t).
  pose proof (count_le_split s t) as Hsplit.
  pose proof (count_if_range (fun v => Reqb v t) s) as Hm.
  fold (multiplicity s t) in Hm.
  repeat split; auto; try lia.
  - intros Hin. apply multiplicity_pos in Hin. lia.
  - intros Hlt. apply multiplicity_pos. lia.
Qed.

Lemma bounds_enclose_occurrences_witness :
  Sorted Rle test_arr /\
  exists i j : Z,
    lowerBound 3 test_arr 2 = Some i /\ upperBound 3 test_arr 2 = Some j /\
    (i <= j)%Z /\ (j - i = multiplicity test_arr 2)%Z /\
    (In 2 test_arr <-> (i < j)%Z).
Proof.
  split; [exact test_arr_sorted |].
  exact (bounds_enclose_occurrences 3 test_arr 2
           test_arr_sorted test_arr_len test_arr_fuel).
Defined.

(** Putting [t] where everything before is at most [t] and everything from
    there on is at least [t] keeps an ascending list ascending. *)
Lemma sorted_insert_at (t : R) (s : list R) :
  Sorted Rle s ->
  forall n : nat,
    (forall j v, (j < n)%nat -> nth_error s j = Some v -> v <= t) ->
    (forall j v, (n <= j)%nat -> nth_error s j = Some v -> t <= v) ->
    Sorted Rle (firstn n s ++ t :: skipn n s).
Proof.
  induction s as [| a s IH]; intros Hs n Hb Ha.
  - rewrite firstn_nil, skipn_nil. repeat constructor.
  - inversion Hs as [| ? ? Hs' Hd]; subst. destruct n as [| n]; cbn.
    + constructor; [exact Hs |]. constructor. apply (Ha 0%nat); [lia | auto].
    + constructor.
      * apply IH; [exact Hs' | |].
        -- intros j v Hj Ev. apply (Hb (S j)); [lia | exact Ev].
        -- intros j v Hj Ev. apply (Ha (S j)); [lia | exact Ev].
      * destruct n as [| n]; cbn.
        -- constructor. apply (Hb 0%nat); [lia | reflexivity].
        -- destruct s as [| b s]; cbn.
           ++ constructor. apply (Hb 0%nat); [lia | reflexivity].
           ++ constructor. now inversion Hd.
Qed.

(** X4: inserting the threshold at the index [lowerBound] returns, or at
    the index [upperBound] returns, keeps an ascending array ascending. *)
Theorem bounds_are_insertion_points (fuel : nat) (s : list R) (t : R) :
  Sorted Rle s ->
  (len s <= max_length)%Z ->
  (len s < 2 ^ Z.of_nat fuel)%Z ->
  exists i j : Z,
    lowerBound fuel s t = Some i /\ upperBound fuel s t = Some j /\
    Sorted Rle (insert_at s i t) /\ Sorted Rle (insert_at s j t).
Proof.
  intros Hs Hl Hf.
  destruct (lowerBound_sorted s t fuel Hs Hl Hf) as (El & Rl & Bl & Al).
  destruct (upperBound_sorted s t fuel Hs Hl Hf) as (Eu & Ru & Bu & Au).
  exists (count_lt s t), (count_le s t).
  split; [exact El |]. split; [exact Eu |].
  assert (Hafter : forall (P : R -> Prop) (i : Z),
             (0 <= i)%Z ->
             (forall v, P v -> t <= v) ->
             (forall v, get s i = Some v -> P v) ->
             forall (k : nat) v,
               (Z.to_nat i <= k)%nat -> nth_error s k = Some v -> t <= v).
  { intros P i Hi HP Hat k v Hk Ev.
    assert (Hrange : (Z.to_nat i < length s)%nat).
    { assert (k < length s)%nat by (apply nth_error_Some; congruence). lia. }
    destruct (nth_error s (Z.to_nat i)) as [w |] eqn:Ew;
      [| apply nth_error_None in Ew; lia].
    assert (t <= w).
    { apply HP, Hat. rewrite <- (Z2Nat.id i) by lia. now rewrite get_of_nat. }
    pose proof (sorted_nth_le s Hs (Z.to_nat i) k w v Hk Ew Ev). lra. }
  split; unfold insert_at; apply sorted_insert_at; auto.
  - intros k v Hk Ev. rewrite <- get_of_nat in Ev.
    apply Rlt_le, Rnot_le_lt. apply (Bl (Z.of_nat k) v); [lia | exact Ev].
  - apply (Hafter (fun v => t <= v)); auto; lia.
  - intros k v Hk Ev. rewrite <- get_of_nat in Ev.
    apply Rnot_lt_le. apply (Bu (Z.of_nat k) v); [lia | exact Ev].
  - apply (Hafter (fun v => t < v)); auto; [lia | intros; lra].
Qed.

Lemma bounds_are_insertion_points_witness :
  Sorted Rle test_arr /\
  exists i j : Z,
    lowerBound 3 test_arr 3 = Some i /\ upperBound 3 test_arr 3 = Some j /\
    Sorted Rle (insert_at test_arr i 3) /\ Sorted Rle (insert_at test_arr j 3).
Proof.
  split; [exact test_arr_sorted |].
  exact (bounds_are_insertion_points 3 test_arr 3
           test_arr_sorted test_arr_len test_arr_fuel).
Defined.

Lemma count_lt_mono s t t' : t <= t' -> (count_lt s t <= count_lt s t')%Z.
Proof.
  intros H. apply count_if_mono. intros v Hv.
  apply Rltb_true in Hv. apply Rltb_true. lra.
Qed.

Lemma count_gt_anti s t t' : t <= t' -> (count_gt s t' <= count_gt s t)%Z.
Proof.
  intros H. apply count_if_mono. intros v Hv.
  apply Rltb_true in Hv. apply Rltb_true. lra.
Qed.

Lemma count_ge_anti s t t' : t <= t' -> (count_ge s t' <= count_ge s t)%Z.
Proof.
  intros H. apply count_if_mono. intros v Hv.
  apply Rleb_true in Hv. apply Rleb_true. lra.
Qed.

(** X5: on an ascending array the count grows with the threshold for [lt]
    and [lte] and shrinks for [gt] and [gte]. *)
Theorem getCountAtThreshold_monotone (fuel : nat) (s : list R) (t t' : R) :
  Sorted Rle s ->
  (len s <= max_length)%Z ->
  (len s < 2 ^ Z.of_nat fuel)%Z ->
  t <= t' ->
  (forall mode : FilterMode,
      mode = "lt"%string \/ mode = "lte"%string ->
      exists c c' : Z,
        getCountAtThreshold fuel mode s t = Some c /\
        getCountAtThreshold fuel mode s t' = Some c' /\ (c <= c')%Z) /\
  (forall mode : FilterMode,
      mode = "gt"%string \/ mode = "gte"%string ->
      exists c c' : Z,
        getCountAtThreshold fuel mode s t = Some c /\
        getCountAtThreshold fuel mode s t' = Some c' /\ (c' <= c)%Z).
Proof.
  intros Hs Hl Hf Ht.
  split; intros mode Hmode;
    exists (spec_count mode s t), (spec_count mode s t');
    (split; [now apply getCountAtThreshold_sorted |]);
    (split; [now apply getCountAtThreshold_sorted |]);
    destruct Hmode as [-> | ->]; unfold spec_count; cbn.
  - now apply count_lt_mono.
  - now apply count_le_mono.
  - now apply count_gt_anti.
  - now apply count_ge_anti.
Qed.

Lemma getCountAtThreshold_monotone_witness :
  exists c c' : Z,
    getCountAtThreshold 3 "lte" test_arr 2 = Some c /\
    getCountAtThreshold 3 "lte" test_arr 5 = Some c' /\ (c <= c')%Z.
Proof.
  destruct (getCountAtThreshold_monotone 3 test_arr 2 5
              test_arr_sorted test_arr_len test_arr_fuel) as [H _]; [lra |].
  apply H. now right.
Defined.

(** ** The component's count and range *)

Lemma sortedValues_sort values :
  sortedValues (buildDistribution values) = sort values.
Proof.
  destruct values as [| v values'] eqn:E; [reflexivity |]. rewrite <- E.
  assert (Hne : values <> []) by (subst; discriminate).
  destruct (buildDistribution_cases values Hne)
    as (_ & [[_ ->] | [(_ & _ & ->) | (_ & _ & ->)]]); reflexivity.
Qed.

Lemma spec_count_perm mode (s s' : list R) (t : R) :
  Permutation s s' -> spec_count mode s t = spec_count mode s' t.
Proof.
  intros H. unfold spec_count, count_lt, count_le, count_gt, count_ge.
  repeat destruct (String.eqb _ _); now apply count_if_perm.
Qed.

(** X6: the count the component computes for a threshold, a binary search
    over its sorted copy, is the number of input values that pass the
    comparison of the mode, whatever the order of the input. *)
Theorem component_count_is_filter_count (fuel : nat) (mode : FilterMode)
  (values : list R) (t : R) :
  (len values <= max_length)%Z ->
  (len values < 2 ^ Z.of_nat fuel)%Z ->
  getCountAtThreshold fuel mode (sortedValues (buildDistribution values)) t
  = Some (spec_count mode values t).
Proof.
  intros Hl Hf. rewrite sortedValues_sort.
  rewrite getCountAtThreshold_sorted.
  - f_equal. apply spec_count_perm. symmetry. apply sort_perm.
  - apply sort_sorted.
  - now rewrite sort_len.
  - now rewrite sort_len.
Qed.

Lemma component_count_is_filter_count_witness :
  getCountAtThreshold 3 "gte"
    (sortedValues (buildDistribution [5; 2; 9; 1; 2])) 2
  = Some (spec_count "gte" [5; 2; 9; 1; 2] 2).
Proof.
  apply (component_count_is_filter_count 3 "gte"%string [5; 2; 9; 1; 2] 2).
  - vm_compute. discriminate.
  - vm_compute. reflexivity.
Defined.

Lemma count_if_all (p : R -> bool) (s : list R) :
  (forall v, In v s -> p v = true) -> count_if p s = len s.
Proof.
  intros H. unfold count_if, len. f_equal.
  induction s as [| a s IH]; [reflexivity |]. simpl.
  rewrite (H a) by now left. simpl. f_equal. apply IH.
  intros v Hv. apply H. now right.
Qed.

Lemma count_if_none (p : R -> bool) (s : list R) :
  (forall v, In v s -> p v = false) -> count_if p s = 0%Z.
Proof.
  intros H. unfold count_if. now rewrite (filter_none p s H).
Qed.

(** X7: at the ends of the range the component counts all or nothing:
    every value is [<= maxValue] and [>= minValue], none is [> maxValue] or
    [< minValue]. *)
Theorem counts_at_range_ends (fuel : nat) (values : list R) :
  (len values <= max_length)%Z ->
  (len values < 2 ^ Z.of_nat fuel)%Z ->
  getCountAtThreshold fuel "lte" (sortedValues (buildDistribution values))
    (maxValue (buildDistribution values)) = Some (len values) /\
  getCountAtThreshold fuel "gt" (sortedValues (buildDistribution values))
    (maxValue (buildDistribution values)) = Some 0%Z /\
  getCountAtThreshold fuel "gte" (sortedValues (buildDistribution values))
    (minValue (buildDistribution values)) = Some (len values) /\
  getCountAtThreshold fuel "lt" (sortedValues (buildDistribution values))
    (minValue (buildDistribution values)) = Some 0%Z.
Proof.
  intros Hl Hf.
  assert (Hcount : forall mode t,
             getCountAtThreshold fuel mode
               (sortedValues (buildDistribution values)) t
             = Some (spec_count mode values t)).
  { intros mode t. rewrite sortedValues_sort.
    rewrite getCountAtThreshold_sorted;
      [| apply sort_sorted | now rewrite sort_len | now rewrite sort_len].
    f_equal. apply spec_count_perm. symmetry. apply sort_perm. }
  rewrite !Hcount. unfold spec_count. cbn.
  repeat split; f_equal.
  - apply count_if_all. intros v Hv. apply Rleb_true.
    now apply buildDistribution_bounds.
  - apply count_if_none. intros v Hv. apply Rltb_false.
    now apply buildDistribution_bounds.
  - apply count_if_all. intros v Hv. apply Rleb_true.
    now apply buildDistribution_bounds.
  - apply count_if_none. intros v Hv. apply Rltb_false.
    now apply buildDistribution_bounds.
Qed.

Lemma counts_at_range_ends_witness :
  getCountAtThreshold 3 "lte"
    (sortedValues (buildDistribution [5; 2; 9; 1; 2]))
    (maxValue (buildDistribution [5; 2; 9; 1; 2])) = Some 5%Z.
Proof.
  apply (counts_at_range_ends 3 [5; 2; 9; 1; 2]).
  - vm_compute. discriminate.
  - vm_compute. reflexivity.
Defined.

(** ** The scale mapper: ends and order *)

(** X8: on a non-degenerate range [thresholdToPercentage] maps [min] to 0
    and [max] to 100, with or without the logarithmic flag. *)
Theorem thresholdToPercentage_ends (min max : R) (logScale : bool) :
  max <> min ->
  thresholdToPercentage min max min logScale = 0 /\
  thresholdToPercentage min max max logScale = 100.
Proof.
  intros N. split.
  - destruct (thresholdToPercentage_cases min max min logScale)
      as [[E _] | [(_ & _ & ->) | (_ & _ & _ & _ & _ & ->)]];
      [contradiction | |]; unfold Rdiv; ring.
  - destruct (thresholdToPercentage_cases min max max logScale)
      as [[E _] | [(_ & _ & ->) | (_ & _ & H1 & H2 & _ & ->)]];
      [contradiction | |].
    + field. lra.
    + assert (ln max <> ln min) by (intros E; apply N; now apply ln_inv).
      field. lra.
Qed.

Lemma thresholdToPercentage_ends_witness :
  thresholdToPercentage 1 100 1 true = 0 /\
  thresholdToPercentage 1 100 100 true = 100.
Proof. apply (thresholdToPercentage_ends 1 100 true). lra. Defined.

(** X9: for [min < max] the percentage grows strictly with the threshold:
    over all thresholds in the linear regime, over the positive thresholds
    in the logarithmic one. *)
Theorem thresholdToPercentage_increasing (min max : R) (logScale : bool)
  (t t' : R) :
  min < max ->
  t < t' ->
  (logScale = true -> 0 < min -> 0 < t) ->
  thresholdToPercentage min max t logScale
  < thresholdToPercentage min max t' logScale.
Proof.
  intros Hlt Ht Hpos.
  assert (Hregime : (logScale = false \/ min <= 0) \/
                    (logScale = true /\ 0 < min)).
  { destruct logScale; [| auto]. destruct (Rlt_dec 0 min); [right | left]; auto.
    right. lra. }
  destruct Hregime as [Hlin | [-> Hmin]].
  - rewrite !thresholdToPercentage_linear by (try lra; tauto).
    assert (0 < / (max - min)) by (apply Rinv_0_lt_compat; lra).
    unfold Rdiv. nra.
  - specialize (Hpos eq_refl Hmin).
    rewrite !thresholdToPercentage_log by lra.
    assert (ln min < ln max) by (apply ln_increasing; lra).
    assert (ln t < ln t') by (apply ln_increasing; lra).
    assert (0 < / (ln max - ln min)) by (apply Rinv_0_lt_compat; lra).
    unfold Rdiv. nra.
Qed.

Lemma thresholdToPercentage_increasing_witness :
  thresholdToPercentage 1 100 10 true < thresholdToPercentage 1 100 20 true.
Proof.
  apply (thresholdToPercentage_increasing 1 100 true 10 20); intros; lra.
Defined.

Lemma buildDistribution_range_ordered values :
  minValue (buildDistribution values) <= maxValue (buildDistribution values).
Proof.
  destruct values as [| v values'] eqn:E.
  - rewrite buildDistribution_empty. cbn. lra.
  - rewrite <- E. assert (Hne : values <> []) by (subst; discriminate).
    destruct (buildDistribution_cases values Hne)
      as (Hle & [[_ ->] | [(_ & _ & ->) | (_ & _ & ->)]]);
      cbn [minValue maxValue]; lra.
Qed.

(** X10: without an [initialThreshold] the component starts at the middle
    of the range: a threshold between [minValue] and [maxValue] that the
    linear scale shows at 50%, or at 0% when the range is degenerate. *)
Theorem initial_threshold_is_centred (values : list R) :
  let d := buildDistribution values in
  let t0 := initialThresholdState None (minValue d) (maxValue d) in
  minValue d <= t0 <= maxValue d /\
  (minValue d < maxValue d ->
   thresholdToPercentage (minValue d) (maxValue d) t0 false = 50) /\
  (minValue d = maxValue d ->
   forall logScale : bool,
     thresholdToPercentage (minValue d) (maxValue d) t0 logScale = 0).
Proof.
  cbv zeta. unfold initialThresholdState.
  pose proof (buildDistribution_range_ordered values) as Hle.
  split; [lra |]. split.
  - intros Hlt. rewrite thresholdToPercentage_linear by (try lra; auto).
    field. lra.
  - intros E logScale. rewrite E. apply thresholdToPercentage_degenerate.
Qed.

Lemma initial_threshold_is_centred_witness :
  thresholdToPercentage (minValue (buildDistribution [5; 2; 9; 1; 2]))
    (maxValue (buildDistribution [5; 2; 9; 1; 2]))
    (initialThresholdState None
       (minValue (buildDistribution [5; 2; 9; 1; 2]))
       (maxValue (buildDistribution [5; 2; 9; 1; 2]))) false = 50.
Proof.
  apply (initial_threshold_is_centred [5; 2; 9; 1; 2]).
  rewrite buildDistribution_test. cbn [minValue maxValue]. lra.
Defined.

(** ** The tick generator: order, range and spacing *)

Lemma linear_tick_increasing min max count i j :
  min < max -> (2 <= count)%Z -> (i < j)%Z ->
  linear_tick min max count i < linear_tick min max count j.
Proof.
  intros Hlt Hc Hij. unfold linear_tick.
  assert (0 < IZR (count - 1)) by (apply IZR_lt; lia).
  assert (0 < / IZR (count - 1)) by now apply Rinv_0_lt_compat.
  assert (IZR i < IZR j) by now apply IZR_lt.
  apply Rplus_lt_compat_l. unfold Rdiv. rewrite !Rmult_assoc.
  apply Rmult_lt_compat_r; [apply Rmult_lt_0_compat; lra | assumption].
Qed.

Lemma log_tick_increasing min max count i j :
  0 < min -> min < max -> (2 <= count)%Z -> (i < j)%Z ->
  log_tick min max count i < log_tick min max count j.
Proof.
  intros Hmin Hlt Hc Hij. unfold log_tick. apply exp_increasing.
  assert (ln min < ln max) by (apply ln_increasing; lra).
  assert (0 < IZR (count - 1)) by (apply IZR_lt; lia).
  assert (0 < / IZR (count - 1)) by now apply Rinv_0_lt_compat.
  assert (IZR i < IZR j) by now apply IZR_lt.
  apply Rplus_lt_compat_l. unfold Rdiv. rewrite !Rmult_assoc.
  apply Rmult_lt_compat_r; [apply Rmult_lt_0_compat; lra | assumption].
Qed.

(** For [min < max] the ticks are the values of a strictly increasing
    function of the index that starts at [min] and ends at [max]. *)
Lemma computeTicks_ascending_shape min max logScale w req ticks :
  min < max ->
  computeTicks min max logScale w req = Some ticks ->
  (2 <= resolved_count w req)%Z /\
  exists f : Z -> R,
    ticks = map (fun k => Fin (f (Z.of_nat k)))
              (seq 0 (Z.to_nat (resolved_count w req))) /\
    f 0%Z = min /\ f (resolved_count w req - 1)%Z = max /\
    (forall i j, (i < j)%Z -> f i < f j) /\
    (forall i, thresholdToPercentage min max (f i) logScale
               = IZR i / IZR (resolved_count w req - 1) * 100).
Proof.
  intros Hlt E.
  assert (N : max <> min) by lra.
  assert (Hc : (2 <= resolved_count w req)%Z).
  { destruct (Z.lt_ge_cases (resolved_count w req) 2); [| assumption].
    rewrite computeTicks_none in E by now right. discriminate. }
  split; [exact Hc |].
  assert (Hc' : IZR (resolved_count w req - 1) <> 0)
    by (apply not_0_IZR; lia).
  assert (Hregime : (logScale = false \/ min <= 0) \/
                    (logScale = true /\ 0 < min)).
  { destruct logScale; [| auto]. destruct (Rlt_dec 0 min); [right | left]; auto.
    right. lra. }
  destruct Hregime as [Hlin | [-> Hmin]].
  - rewrite computeTicks_linear in E by assumption. injection E as <-.
    exists (linear_tick min max (resolved_count w req)).
    destruct (linear_tick_ends min max _ Hc) as [E0 E1].
    repeat split; auto.
    + intros i j Hij. now apply linear_tick_increasing.
    + intros i. rewrite thresholdToPercentage_linear by (try lra; tauto).
      unfold linear_tick. field. split; [assumption | lra].
  - rewrite computeTicks_log in E by (try assumption; lra). injection E as <-.
    exists (log_tick min max (resolved_count w req)).
    destruct (log_tick_ends min max _ Hc Hmin) as [E0 E1]; [lra |].
    repeat split; auto.
    + intros i j Hij. apply log_tick_increasing; auto.
    + intros i. rewrite thresholdToPercentage_log
        by (try lra; unfold log_tick; apply exp_pos).
      unfold log_tick. rewrite ln_exp.
      assert (ln min < ln max) by (apply ln_increasing; lra).
      field. split; [assumption | lra].
Qed.

Lemma ticks_get_inv (f : Z -> number) (count i : Z) (a : number) :
  (0 <= count)%Z ->
  get (map (fun k => f (Z.of_nat k)) (seq 0 (Z.to_nat count))) i = Some a ->
  (0 <= i < count)%Z /\ a = f i.
Proof.
  intros Hc E. pose proof (get_Some_range _ _ _ E) as Hi.
  rewrite ticks_len in Hi by exact Hc. split; [exact Hi |].
  rewrite ticks_get in E by exact Hi. congruence.
Qed.


Lemma five_linear_ticks :
  computeTicks 0 100 false 200 (Some 5%Z)
  = Some (map (fun k => Fin (linear_tick 0 100 5 (Z.of_nat k))) (seq 0 5)).
Proof.
  apply (computeTicks_linear 0 100 false 200 (Some 5%Z));
    [lra | simpl; lia | now left].
Defined.


(** X12: the ticks are evenly spaced on the axis the component draws: with
    the same flag [thresholdToPercentage] puts tick [i] of [count] at
    [i / (count - 1)] of the width, in the linear and in the logarithmic
    regime. *)
Theorem ticks_evenly_spaced_on_axis (min max : R) (logScale : bool) (w : R)
  (req : option Z) (ticks : list number) :
  min < max ->
  computeTicks min max logScale w req = Some ticks ->
  forall (i : Z) (a : number),
    get ticks i = Some a ->
    exists x : R,
      a = Fin x /\
      thresholdToPercentage min max x logScale
      = IZR i / IZR (resolved_count w req - 1) * 100.
Proof.
  intros Hlt E i a Ea.
  destruct (computeTicks_ascending_shape _ _ _ _ _ _ Hlt E)
    as (Hc & f & -> & _ & _ & _ & Hpct).
  apply (ticks_get_inv (fun z => Fin (f z))) in Ea; [| lia].
  destruct Ea as [Hi ->]. exists (f i). split; [reflexivity | apply Hpct].
Qed.

Lemma ticks_evenly_spaced_on_axis_witness :
  exists x : R,
    Fin (linear_tick 0 100 5 2) = Fin x /\
    thresholdToPercentage 0 100 x false = IZR 2 / IZR (5 - 1) * 100.
Proof.
  apply (ticks_evenly_spaced_on_axis 0 100 false 200 (Some 5%Z) _
           ltac:(lra) five_linear_ticks 2%Z _ eq_refl).
Defined.

(** X13: the automatic tick count is 6 for every width below 220 pixels
    and from there on the width divided by 40, rounded: within half a tick
    of one tick per 40 pixels. *)
Theorem autoTickCount_by_width (w : R) :
  (w < 220 -> autoTickCount w = 6%Z) /\
  (220 <= w ->
   autoTickCount w = Math_round (w / 40) /\
   w / 40 - / 2 < IZR (autoTickCount w) <= w / 40 + / 2).
Proof.
  assert (E : (if Reqb w 0 then 0 else w) = w).
  { destruct (Reqb w 0) eqn:E; [| reflexivity].
    apply Reqb_true in E. now subst. }
  unfold autoTickCount, Math_round. rewrite E.
  pose proof (Zfloor_bound (w / 40 + / 2)) as [Hlo Hhi].
  split.
  - intros Hw. apply Z.max_l.
    assert (IZR (Zfloor (w / 40 + / 2)) < IZR 6) by lra.
    apply lt_IZR in H. lia.
  - intros Hw.
    assert (H6 : (6 <= Zfloor (w / 40 + / 2))%Z)
      by (apply Zfloor_lub; lra).
    rewrite Z.max_r by exact H6. split; [reflexivity | lra].
Qed.

Lemma autoTickCount_by_width_witness :
  autoTickCount 200 = 6%Z /\
  autoTickCount 800 = Math_round (800 / 40).
Proof.
  split.
  - apply (autoTickCount_by_width 200). lra.
  - apply (autoTickCount_by_width 800). lra.
Defined.

(** ** The distribution builder: range, shape and size *)

Lemma buildDistribution_attained values :
  values <> [] ->
  In (minValue (buildDistribution values)) values /\
  In (maxValue (buildDistribution values)) values.
Proof.
  intros Hne.
  assert (Hlen : (0 < len (sort values))%Z).
  { rewrite sort_len. destruct values; [contradiction |].
    unfold len. simpl. lia. }
  assert (Hat : forall i, (0 <= i < len (sort values))%Z ->
                          In (at_ (sort values) i) values).
  { intros i Hi. unfold at_.
    destruct (get_in_range (sort values) i Hi) as [a Ea]. rewrite Ea.
    unfold get in Ea. destruct (i <? 0)%Z; [discriminate |].
    apply nth_error_In in Ea.
    eapply Permutation_in; [symmetry; apply sort_perm | exact Ea]. }
  destruct (buildDistribution_cases values Hne)
    as (_ & [[E ->] | [(_ & _ & ->) | (_ & _ & ->)]]);
    cbn [minValue maxValue]; split; apply Hat; lia.
Qed.

(** X14: [minValue] and [maxValue] are the smallest and the largest input
    value: both occur in the input and every input value lies between
    them. *)
Theorem range_is_min_and_max (values : list R) :
  values <> [] ->
  In (minValue (buildDistribution values)) values /\
  In (maxValue (buildDistribution values)) values /\
  (forall v, In v values ->
             minValue (buildDistribution values) <= v
             <= maxValue (buildDistribution values)).
Proof.
  intros Hne. destruct (buildDistribution_attained values Hne) as [H1 H2].
  split; [exact H1 |]. split; [exact H2 |].
  intros v Hv. now apply buildDistribution_bounds.
Qed.

Lemma range_is_min_and_max_witness :
  In (minValue (buildDistribution [5; 2; 9; 1; 2])) [5; 2; 9; 1; 2] /\
  In (maxValue (buildDistribution [5; 2; 9; 1; 2])) [5; 2; 9; 1; 2].
Proof.
  destruct (range_is_min_and_max [5; 2; 9; 1; 2]) as (H1 & H2 & _).
  - discriminate.
  - split; [exact H1 | exact H2].
Defined.

(** X15: the range is degenerate exactly when all input values are equal
    (or there is none); then there are no ticks whatever the flag, width
    and requested count, and a non-empty input is drawn as the two points
    [(min, 0)] and [(min, n)]. *)
Theorem degenerate_distribution (values : list R) :
  ((forall v w, In v values -> In w values -> v = w)
   <-> minValue (buildDistribution values)
       = maxValue (buildDistribution values)) /\
  (minValue (buildDistribution values) = maxValue (buildDistribution values) ->
   (forall (logScale : bool) (width : R) (req : option Z),
       computeTicks (minValue (buildDistribution values))
         (maxValue (buildDistribution values)) logScale width req = None) /\
   (values <> [] ->
    chartData (buildDistribution values)
    = [mkPoint (minValue (buildDistribution values)) 0;
       mkPoint (minValue (buildDistribution values)) (len values)])).
Proof.
  split; [split |].
  - intros Hall. destruct values as [| v0 values'] eqn:E; [reflexivity |].
    rewrite <- E in *. assert (Hne : values <> []) by (subst; discriminate).
    destruct (buildDistribution_attained values Hne) as [H1 H2].
    now apply Hall.
  - intros Heq v w Hv Hw.
    pose proof (buildDistribution_bounds values v Hv).
    pose proof (buildDistribution_bounds values w Hw). lra.
  - intros Heq. split.
    + intros logScale width req. apply computeTicks_none. left.
      now symmetry.
    + intros Hne. pose proof (sort_len values) as Hsl.
      destruct (buildDistribution_cases values Hne)
        as (_ & [[E HE] | [(Hlt & _ & HE) | (Hlt & _ & HE)]]);
        rewrite HE in *; cbn [chartData minValue maxValue] in *;
        [now rewrite Hsl | lra | lra].
Qed.

Lemma degenerate_distribution_witness :
  computeTicks (minValue (buildDistribution [7; 7; 7]))
    (maxValue (buildDistribution [7; 7; 7])) true 800 None = None /\
  chartData (buildDistribution [7; 7; 7])
  = [mkPoint (minValue (buildDistribution [7; 7; 7])) 0;
     mkPoint (minValue (buildDistribution [7; 7; 7])) 3].
Proof.
  destruct (degenerate_distribution [7; 7; 7]) as [[Hiff _] Hcons].
  assert (Heq : minValue (buildDistribution [7; 7; 7])
                = maxValue (buildDistribution [7; 7; 7])).
  { apply Hiff. intros v w Hv Hw. simpl in Hv, Hw.
    destruct Hv as [<- | [<- | [<- | []]]];
      destruct Hw as [<- | [<- | [<- | []]]]; reflexivity. }
  destruct (Hcons Heq) as [Hticks Hdata].
  split; [apply Hticks | apply Hdata; discriminate].
Defined.


Lemma forEach_push_In rest index p :
  In p (forEach_push rest index []) ->
  exists (k : nat) v,
    nth_error rest k = Some v /\ p = mkPoint v (index + Z.of_nat k + 1).
Proof.
  intros Hp. destruct (In_nth_error _ _ Hp) as [k Ek].
  rewrite forEach_push_nth in Ek.
  destruct (nth_error rest k) as [v |] eqn:Ev; [| discriminate].
  exists k, v. split; [exact Ev |]. simpl in Ek. congruence.
Qed.


(** The binned series in closed form. *)
Lemma binned_chartData values :
  (50 < len values)%Z ->
  minValue (buildDistribution values) < maxValue (buildDistribution values) ->
  chartData (buildDistribution values)
  = map (fun k : nat =>
           mkPoint
             (minValue (buildDistribution values)
              + IZR (Z.of_nat k)
                * ((maxValue (buildDistribution values)
                    - minValue (buildDistribution values))
                   / IZR (Z.min 100 (len values))))
             (count_le (sort values)
                (minValue (buildDistribution values)
                 + IZR (Z.of_nat k)
                   * ((maxValue (buildDistribution values)
                       - minValue (buildDistribution values))
                      / IZR (Z.min 100 (len values))))))
      (seq 0 (Z.to_nat (Z.min 100 (len values) + 1))).
Proof.
  intros Hn Hmm.
  assert (Hne : values <> [])
    by (intros ->; unfold len in Hn; simpl in Hn; lia).
  pose proof (sort_sorted values) as Hs.
  pose proof (sort_len values) as Hsl.
  destruct (buildDistribution_cases values Hne)
    as (Hle & [[E HE] | [(Hlt & H50 & HE) | (Hlt & H50 & HE)]]);
    rewrite HE in *; cbn [chartData sortedValues minValue maxValue] in *;
    [lra | lia |].
  clear HE Hmm. rewrite Hsl in *.
  assert (Hb0 : 0 < IZR (Z.min 100 (len values))) by (apply IZR_lt; lia).
  rewrite bins_loop_spec.
  - apply map_ext. intros k. reflexivity.
  - exact Hs.
  - apply Rlt_le. apply Rdiv_lt_0_compat; lra.
  - lia.
  - split; [lia |]. apply count_if_range.
Qed.



(** X17: the series never has more than 101 points, nor more than one
    point beyond the number of values. *)
Theorem series_size_is_bounded (values : list R) :
  (len (chartData (buildDistribution values))
   <= Z.min 101 (len values + 1))%Z.
Proof.
  destruct values as [| v0 values'] eqn:Ev.
  { rewrite buildDistribution_empty. cbn. lia. }
  rewrite <- Ev. assert (Hne : values <> []) by (subst; discriminate).
  clear Ev v0 values'.
  pose proof (sort_len values) as Hsl.
  assert (Hlen : (0 < len values)%Z)
    by (destruct values; [contradiction | unfold len; simpl; lia]).
  destruct (buildDistribution_cases values Hne)
    as (Hle & [[E HE] | [(Hlt & H50 & HE) | (Hlt & H50 & HE)]]).
  - rewrite HE. cbn [chartData]. unfold len in *. simpl length. lia.
  - rewrite HE. cbn [chartData]. unfold len in *.
    rewrite forEach_push_length. lia.
  - rewrite Hsl in H50.
    assert (Hmm : minValue (buildDistribution values)
                  < maxValue (buildDistribution values))
      by (rewrite HE; cbn [minValue maxValue]; exact Hlt).
    rewrite (binned_chartData values H50 Hmm).
    unfold len in *. rewrite length_map, length_seq. lia.
Qed.

(** Two ascending lists with the same elements are the same list. *)
Lemma sorted_perm_unique (l1 : list R) :
  forall l2, Sorted Rle l1 -> Sorted Rle l2 -> Permutation l1 l2 -> l1 = l2.
Proof.
  induction l1 as [| a l1 IH]; intros l2 H1 H2 Hp.
  - apply Permutation_nil in Hp. now subst.
  - destruct l2 as [| b l2];
      [apply Permutation_sym, Permutation_nil in Hp; discriminate |].
    assert (S1 := Sorted_StronglySorted Rle_trans H1).
    assert (S2 := Sorted_StronglySorted Rle_trans H2).
    inversion S1 as [| ? ? S1' F1]; subst.
    inversion S2 as [| ? ? S2' F2]; subst.
    rewrite Forall_forall in F1, F2.
    assert (Hab : a = b).
    { assert (Ha : In a (b :: l2))
        by (eapply Permutation_in; [exact Hp | now left]).
      assert (Hb : In b (a :: l1))
        by (eapply Permutation_in; [symmetry; exact Hp | now left]).
      destruct Ha as [-> | Ha]; [reflexivity |].
      destruct Hb as [-> | Hb]; [reflexivity |].
      apply F2 in Ha. apply F1 in Hb. lra. }
    subst b. f_equal. apply IH.
    + now inversion H1.
    + now inversion H2.
    + now apply Permutation_cons_inv in Hp.
Qed.

(** X18: the order of the input does not matter: two inputs with the same
    values, in any order, give the same series, range and sorted copy. *)
Theorem buildDistribution_ignores_order (values values' : list R) :
  Permutation values values' ->
  buildDistribution values = buildDistribution values'.
Proof.
  intros Hp.
  assert (Hs : sort values = sort values').
  { apply sorted_perm_unique; try apply sort_sorted.
    rewrite <- (sort_perm values), <- (sort_perm values'). exact Hp. }
  assert (Hl : len values = len values')
    by (unfold len; now rewrite (Permutation_length Hp)).
  unfold buildDistribution. now rewrite Hs, Hl.
Qed.

Lemma buildDistribution_ignores_order_witness :
  buildDistribution [2; 1] = buildDistribution [1; 2].
Proof.
  apply (buildDistribution_ignores_order [2; 1] [1; 2]). apply perm_swap.
Defined.

(** X19: among the exact points (at most 50 values, [min < max]) the
    count of a point exceeds the number of input values below its value
    and does not exceed the number of input values at or below it; so for
    a value that occurs once it is the cumulative count. *)
Theorem exact_point_counts (values : list R) (p : DistributionPoint) :
  (len values <= 50)%Z ->
  minValue (buildDistribution values) < maxValue (buildDistribution values) ->
  In p (chartData (buildDistribution values)) ->
  (count_lt values (value p) < count p <= count_le values (value p))%Z /\
  (multiplicity values (value p) = 1%Z ->
   count p = count_le values (value p)).
Proof.
  intros H50 Hmm Hp.
  assert (Hne : values <> []).
  { intros ->. rewrite buildDistribution_empty in Hp. contradiction. }
  pose proof (sort_sorted values) as Hs.
  pose proof (sort_len values) as Hsl.
  pose proof (sort_perm values) as Hperm.
  destruct (buildDistribution_cases values Hne)
    as (Hle & [[E HE] | [(Hlt & H50' & HE) | (Hlt & H50' & HE)]]);
    rewrite HE in *; cbn [chartData minValue maxValue] in *;
    [lra | | lia].
  apply forEach_push_In in Hp. destruct Hp as (k & v & Ek & ->).
  cbn [value count].
  assert (Hbounds :
            (count_lt values v < 0 + Z.of_nat k + 1 <= count_le values v)%Z).
  { unfold count_lt, count_le.
    rewrite (count_if_perm _ _ _ Hperm).
    rewrite (count_if_perm (fun w => Rleb w v) _ _ Hperm).
    pose proof (sorted_partition (fun w => Rltb w v) (sort values) Hs) as Plt.
    pose proof (sorted_partition (fun w => Rleb w v) (sort values) Hs) as Ple.
    specialize (Plt ltac:(intros a b Hab Hb; apply Rltb_true in Hb;
                          apply Rltb_true; lra) k v Ek).
    specialize (Ple ltac:(intros a b Hab Hb; apply Rleb_true in Hb;
                          apply Rleb_true; lra) k v Ek).
    cbv beta in Plt, Ple.
    assert (Rltb v v = false) by (apply Rltb_false; lra).
    assert (Rleb v v = true) by (apply Rleb_true; lra).
    unfold count_if.
    assert (~ (k < length (filter (fun w => Rltb w v) (sort values)))%nat)
      by (intros Hk; apply Plt in Hk; congruence).
    assert (k < length (filter (fun w => Rleb w v) (sort values)))%nat
      by (apply Ple; assumption).
    lia. }
  split; [exact Hbounds |].
  intros Hone. pose proof (count_le_split values v). lia.
Qed.

Lemma exact_point_counts_witness :
  Z.lt (count_lt [5; 2; 9; 1; 2] 5) 4 /\
  Z.le 4 (count_le [5; 2; 9; 1; 2] 5).
Proof.
  apply (exact_point_counts [5; 2; 9; 1; 2] (mkPoint 5 4)).
  - vm_compute. discriminate.
  - rewrite buildDistribution_test. cbn [minValue maxValue]. lra.
  - rewrite buildDistribution_test. cbn [chartData].
    right. right. right. left. reflexivity.
Defined.

(** ** The drag handler: range, saturation and order *)


Lemma exp_le x y : x <= y -> exp x <= exp y.
Proof.
  intros [H | ->]; [left; now apply exp_increasing | right; reflexivity].
Qed.

(** The interpolation is finite and does not decrease with the fraction;
    it gives [min] at 0 and [max] at 1. *)
Lemma newThreshold_monotone min max logScale f g :
  min <= max -> f <= g ->
  exists t u : R,
    newThreshold min max logScale (Fin f) = Fin t /\
    newThreshold min max logScale (Fin g) = Fin u /\ t <= u.
Proof.
  intros Hle Hfg.
  assert (Hregime : (logScale = false \/ min <= 0) \/
                    (logScale = true /\ 0 < min)).
  { destruct logScale; [| auto]. destruct (Rlt_dec 0 min); [right | left]; auto.
    right. lra. }
  destruct Hregime as [Hlin | [-> Hmin]].
  - rewrite !newThreshold_linear by exact Hlin.
    do 2 eexists. split; [reflexivity |]. split; [reflexivity |]. nra.
  - rewrite !newThreshold_log by lra.
    do 2 eexists. split; [reflexivity |]. split; [reflexivity |].
    apply exp_le. pose proof (ln_le min max Hmin Hle). nra.
Qed.



(** X21: over a plotting area of positive width the fraction is 0 for a
    pointer left of the area, 1 for a pointer at or beyond its right edge,
    and the relative offset for a pointer strictly inside. *)
Theorem percentage_saturates (clientX rectLeft rectWidth : R) :
  0 < rectWidth ->
  (clientX < rectLeft -> percentage clientX rectLeft rectWidth = Fin 0) /\
  (rectLeft + rectWidth <= clientX ->
   percentage clientX rectLeft rectWidth = Fin 1) /\
  (rectLeft < clientX < rectLeft + rectWidth ->
   percentage clientX rectLeft rectWidth
   = Fin ((clientX - rectLeft) / rectWidth)).
Proof.
  intros Hw.
  assert (Hi : 0 < / rectWidth) by now apply Rinv_0_lt_compat.
  assert (E1 : rectWidth * / rectWidth = 1) by (field; lra).
  repeat split; intros H; rewrite percentage_regular by lra; f_equal;
    unfold Rdiv.
  - rewrite Rmin_right by nra. apply Rmax_left. nra.
  - rewrite Rmin_left by nra. apply Rmax_right. lra.
  - rewrite Rmin_right by nra. apply Rmax_right. nra.
Qed.

Lemma percentage_saturates_witness :
  percentage 50 100 400 = Fin 0 /\ percentage 900 100 400 = Fin 1 /\
  percentage 200 100 400 = Fin ((200 - 100) / 400).
Proof.
  split; [| split]; apply (percentage_saturates _ 100 400); lra.
Defined.

Lemma clamp_monotone q r : q <= r -> Rmax 0 (Rmin 1 q) <= Rmax 0 (Rmin 1 r).
Proof.
  intros H. unfold Rmax, Rmin. repeat destruct (Rle_dec _ _); lra.
Qed.

(** X22: over an area of positive width, moving the pointer to the right
    never lowers the threshold (pointer positions exactly on the left edge
    aside). *)
Theorem drag_is_monotone (min max : R) (logScale : bool)
  (clientX clientX' rectLeft rectWidth : R) :
  min <= max ->
  0 < rectWidth ->
  clientX <= clientX' ->
  clientX <> rectLeft -> clientX' <> rectLeft ->
  exists t t' : R,
    newThreshold min max logScale (percentage clientX rectLeft rectWidth)
    = Fin t /\
    newThreshold min max logScale (percentage clientX' rectLeft rectWidth)
    = Fin t' /\
    t <= t'.
Proof.
  intros Hle Hw Hx N N'.
  rewrite !percentage_regular by lra.
  apply newThreshold_monotone; [exact Hle |].
  apply clamp_monotone.
  assert (Hi : 0 < / rectWidth) by now apply Rinv_0_lt_compat.
  unfold Rdiv. nra.
Qed.

Lemma drag_is_monotone_witness :
  exists t t' : R,
    newThreshold 0 100 false (percentage 200 100 400) = Fin t /\
    newThreshold 0 100 false (percentage 300 100 400) = Fin t' /\
    t <= t'.
Proof.
  apply (drag_is_monotone 0 100 false 200 300 100 400); lra.
Defined.

(** ** The demo page *)

(** X23: the number of data points the demo page accepts is always
    between 3 and 1000: an input in that range is kept, a smaller one
    becomes 3, a larger one 1000, and an unreadable or zero input becomes
    200. *)
Theorem dataPointsCount_is_clamped (parsed : number) :
  (exists n : R,
      dataPointsCount_onChange parsed = Fin n /\ 3 <= n <= 1000) /\
  (forall n : R,
      parsed = Fin n -> n <> 0 ->
      dataPointsCount_onChange parsed = Fin (Rmax 3 (Rmin 1000 n))) /\
  (parsed = NaN \/ parsed = Fin 0 ->
   dataPointsCount_onChange parsed = Fin 200).
Proof.
  assert (Hclamp : forall n, 3 <= Rmax 3 (Rmin 1000 n) <= 1000).
  { intros n. unfold Rmax, Rmin. repeat destruct (Rle_dec _ _); lra. }
  assert (H200 : Rmax 3 (Rmin 1000 200) = 200).
  { rewrite Rmin_right by lra. apply Rmax_right. lra. }
  assert (Hfin : forall n, n <> 0 ->
                   dataPointsCount_onChange (Fin n)
                   = Fin (Rmax 3 (Rmin 1000 n))).
  { intros n Hn. unfold dataPointsCount_onChange, or_else, truthy.
    replace (Reqb n 0) with false by (symmetry; now apply Reqb_false).
    reflexivity. }
  assert (Hzero : dataPointsCount_onChange (Fin 0) = Fin 200).
  { unfold dataPointsCount_onChange, or_else, truthy.
    replace (Reqb 0 0) with true by (symmetry; now apply Reqb_true).
    cbn. now rewrite H200. }
  assert (Hnan : dataPointsCount_onChange NaN = Fin 200).
  { cbn. now rewrite H200. }
  split; [| split].
  - destruct parsed as [n | | |].
    + destruct (Req_dec_T n 0) as [-> | Hn].
      * exists 200. rewrite Hzero. split; [reflexivity | lra].
      * eexists. split; [now apply Hfin | apply Hclamp].
    + exists 1000. split; [| lra]. cbn. f_equal. apply Rmax_right. lra.
    + exists 3. split; [reflexivity | lra].
    + exists 200. rewrite Hnan. split; [reflexivity | lra].
  - intros n -> Hn. now apply Hfin.
  - intros [-> | ->]; assumption.
Qed.

Lemma dataPointsCount_is_clamped_witness :
  dataPointsCount_onChange (Fin 5000) = Fin (Rmax 3 (Rmin 1000 5000)) /\
  dataPointsCount_onChange NaN = Fin 200.
Proof.
  destruct (dataPointsCount_is_clamped (Fin 5000)) as (_ & H & _).
  destruct (dataPointsCount_is_clamped NaN) as (_ & _ & H').
  split; [apply (H 5000); [reflexivity | lra] | apply H'; now left].
Defined.
